(** * Verification of the TTS text tokenizer

    Shallow embedding of [TTS/tts/utils/text/tokenizer.py] (class
    [TTSTokenizer]) and of [TTS/tts/utils/text/phonemizers/ko_kr_phonemizer.py]
    (class [KO_KR_Phonemizer]).

    Python strings are [string], sequences of one-byte characters; a
    character is a string of length one.  Token IDs are Python integers,
    here [Z].  An exception is a value of
    [exn]; a call that may raise returns a [result].  The one mutable
    attribute of the tokenizer, [not_found_characters], is threaded through
    the calls explicitly: a method that may mutate [self] returns the new
    [self] next to its result. *)

From Stdlib Require Import ZArith Lia.
From stdpp Require Import base list strings gmap.

Local Open Scope Z_scope.
Local Open Scope nat_scope.

(** ** Python values and exceptions *)

Inductive exn : Type :=
| UnknownSymbolError (symbol : string)   (* char_to_id on a symbol outside vocab *)
| OutOfRangeError (id : Z)               (* id_to_char on an id outside the range *)
| AttributeError (attr : string)         (* attribute access on None *)
| ValueError (msg : string).             (* extended slice of the wrong size *)

Inductive result (A : Type) : Type :=
| Ok (a : A)
| Raise (e : exn).
Arguments Ok {A} a.
Arguments Raise {A} e.

Definition rbind {A B} (r : result A) (k : A -> result B) : result B :=
  match r with
  | Ok a => k a
  | Raise e => Raise e
  end.

Notation "x <-! r ; k" := (rbind r (fun x => k))
  (at level 100, r at next level, right associativity).

(** A list comprehension [[f(x) for x in l]]: the first exception ends it. *)
Fixpoint comprehension {A B} (f : A -> result B) (l : list A) : result (list B) :=
  match l with
  | [] => Ok []
  | x :: l' => y <-! f x; ys <-! comprehension f l'; Ok (y :: ys)
  end.

(** [Union[str, List]]: what [encode], [pad_with_bos_eos] and
    [intersperse_blank_char] accept. *)
Inductive str_or_list : Type :=
| Str (s : string)
| Lst (l : list string).

(** Iterating a Python string yields its characters, each a string. *)
Fixpoint chars (s : string) : list string :=
  match s with
  | EmptyString => []
  | String c s' => String c EmptyString :: chars s'
  end.

(** The text a sequence of symbols spells. *)
Definition spell (symbols : list string) : string :=
  foldr String.append EmptyString symbols.

(** [list(x)] *)
Definition py_list (x : str_or_list) : list string :=
  match x with
  | Str s => chars s
  | Lst l => l
  end.

(** [len(x)] *)
Definition py_len (x : str_or_list) : nat :=
  match x with
  | Str s => String.length s
  | Lst l => length l
  end.

(** ** Regular expressions: an alternation of escaped literals

    [pattern = "|".join([re.escape(x) for x in vocab])] is an alternation of
    literals.  Python tries the alternatives from left to right and takes the
    first that matches at the current position; the pattern of an empty
    vocabulary is the empty regular expression, which matches the empty
    string. *)
Module Re.

Definition pattern := list string.

Definition compile (vocab : list string) : pattern :=
  match vocab with
  | [] => [EmptyString]
  | _ => vocab
  end.

(** [strip_prefix lit s] is [s] without its prefix [lit], if it has it. *)
Fixpoint strip_prefix (lit s : string) : option string :=
  match lit with
  | EmptyString => Some s
  | String a lit' =>
      match s with
      | EmptyString => None
      | String b s' => if Ascii.eqb a b then strip_prefix lit' s' else None
      end
  end.

Definition is_empty (s : string) : bool :=
  match s with
  | EmptyString => true
  | String _ _ => false
  end.

(** One match attempt at the front of [s]: the first alternative that is a
    prefix of [s], with what follows it.  With [must_advance] (set after
    an empty match) a match of the empty string is refused. *)
Fixpoint match_at (p : pattern) (must_advance : bool) (s : string)
  : option (string * string) :=
  match p with
  | [] => None
  | lit :: p' =>
      match strip_prefix lit s with
      | Some rest =>
          if must_advance && is_empty lit then match_at p' must_advance s
          else Some (lit, rest)
      | None => match_at p' must_advance s
      end
  end.

(** The scan behind [findall] and [split]: the successive matches, each
    with the text skipped since the previous match, and the text after
    the last match. *)
Definition scanned : Type := list (string * string) * string.

Definition skip_char (c : Ascii.ascii) (r : scanned) : scanned :=
  match r with
  | ([], tl) => ([], String c tl)
  | ((gap, m) :: ms, tl) => ((String c gap, m) :: ms, tl)
  end.

Fixpoint scan_fuel (fuel : nat) (p : pattern) (must_advance : bool)
    (s : string) : scanned :=
  match fuel with
  | 0 => ([], s)
  | S fuel' =>
      match match_at p must_advance s with
      | Some (m, rest) =>
          let '(ms, tl) := scan_fuel fuel' p (is_empty m) rest in
          ((EmptyString, m) :: ms, tl)
      | None =>
          match s with
          | EmptyString => ([], EmptyString)
          | String c s' => skip_char c (scan_fuel fuel' p false s')
          end
      end
  end.

(** Every step either consumes a character or turns an empty match into
    [must_advance], so [2 * len(s) + 2] steps are enough. *)
Definition steps (must_advance : bool) (s : string) : nat :=
  2 * String.length s + (if must_advance then 1 else 2).

(** The scan with exactly the fuel it needs. *)
Definition run (p : pattern) (adv : bool) (s : string) : scanned :=
  scan_fuel (steps adv s) p adv s.

Definition scan (p : pattern) (s : string) : scanned := run p false s.

(** The text a scan went over: the gaps and the matches, in order. *)
Definition reassemble (r : scanned) : string :=
  foldr (fun gm acc => fst gm +:+ snd gm +:+ acc) (snd r) (fst r).

(** The pieces [split] returns, without the empty ones. *)
Definition gaps (r : scanned) : list string :=
  filter (fun tok => tok <> EmptyString) ((fst r).*1 ++ [snd r]).

(** [re.findall(pattern, s)] *)
Definition findall (p : pattern) (s : string) : list string :=
  (fst (scan p s)).*2.

(** [re.split(pattern, s)] *)
Definition split (p : pattern) (s : string) : list string :=
  (fst (scan p s)).*1 ++ [snd (scan p s)].

End Re.

(** ** nltk's [RegexpTokenizer(pattern, gaps)] *)
Record RegexpTokenizer : Type := {
  rt_pattern : Re.pattern;
  rt_gaps : bool
}.

(** [RegexpTokenizer.tokenize]: with [gaps] the pattern separates the tokens
    and empty tokens are discarded; otherwise the pattern matches them. *)
Definition RegexpTokenizer_tokenize (t : RegexpTokenizer) (text : string)
  : list string :=
  if rt_gaps t
  then filter (fun tok => tok <> EmptyString) (Re.split (rt_pattern t) text)
  else Re.findall (rt_pattern t) text.

(** ** The character set

    The class of [TTS/tts/utils/text/characters.py]: the tokenizer uses its
    [vocab], its reserved symbols and its two mappings. *)
Record Characters : Type := {
  vocab : list string;
  pad : string;
  blank : string;
  bos : string;
  eos : string
}.

(** Position of the first occurrence of [symbol] in [l], counted from [i]. *)
Fixpoint index_from (i : nat) (symbol : string) (l : list string) : option nat :=
  match l with
  | [] => None
  | x :: l' => if String.eqb x symbol then Some i else index_from (S i) symbol l'
  end.

(** Modelled from the spec: [Characters.char_to_id] is missing from the
    sources.  "every symbol in vocab maps to exactly one non-negative integer
    ID equal to its position"; "fails with UnknownSymbolError if symbol absent
    from vocab". *)
Definition char_to_id (cs : Characters) (symbol : string) : result Z :=
  match index_from 0 symbol (vocab cs) with
  | Some i => Ok (Z.of_nat i)
  | None => Raise (UnknownSymbolError symbol)
  end.

(** Modelled from the spec: [Characters.id_to_char] is missing from the
    sources.  "ID->symbol and symbol->ID are exact inverses for all IDs in
    range"; "fails with OutOfRangeError if id is negative or >= vocab size". *)
Definition id_to_char (cs : Characters) (id : Z) : result string :=
  if (id <? 0)%Z then Raise (OutOfRangeError id)
  else match vocab cs !! Z.to_nat id with
       | Some symbol => Ok symbol
       | None => Raise (OutOfRangeError id)
       end.

(** ** Phonemizer backends

    The interface of [BasePhonemizer] as the tokenizer and its factory use
    it.  [Resources] is the state of what a backend needs at run time and
    does not own. *)
Record Resources : Type := {
  runtime_dependency_present : bool
}.

Record Phonemizer : Type := {
  language : string;
  punctuations : string;
  keep_puncs : bool;
  name : string;
  phonemize : string -> string -> string;      (* text, separator *)
  supported_languages : list (string * string);
  version : string;
  is_available : Resources -> result bool
}.

Module KO_KR_Phonemizer.
Section Backend.

(** [TTS.tts.utils.text.korean.phonemizer.korean_text_to_phonemes] *)
Variable korean_text_to_phonemes : string -> string -> string.

Definition language : string := "ko-kr".

Definition name : string := "ko_kr_phonemizer".

Definition phonemize (text separator : string) : string :=
  korean_text_to_phonemes text separator.

Definition supported_languages : list (string * string) :=
  [("ko-kr", "hangeul(korean)")].

Definition version : string := "0.0.1".

Definition is_available (env : Resources) : result bool := Ok true.

(** [KO_KR_Phonemizer(punctuations, keep_puncs)] *)
Definition new (punctuations : string) (keep_puncs : bool) : Phonemizer :=
  Build_Phonemizer language punctuations keep_puncs name phonemize
    supported_languages version is_available.

End Backend.
End KO_KR_Phonemizer.

(** ** The tokenizer object *)
Record TTSTokenizer : Type := {
  text_cleaner : option (string -> string);
  use_phonemes : bool;
  add_blank : bool;
  use_eos_bos : bool;
  characters : Characters;
  pad_id : Z;
  blank_id : Z;
  not_found_characters : list string;
  phonemizer : option Phonemizer;
  tokenizer : RegexpTokenizer;
  not_found_tokenizer : RegexpTokenizer
}.

Definition set_not_found_characters (self : TTSTokenizer) (l : list string)
  : TTSTokenizer :=
  {| text_cleaner := text_cleaner self;
     use_phonemes := use_phonemes self;
     add_blank := add_blank self;
     use_eos_bos := use_eos_bos self;
     characters := characters self;
     pad_id := pad_id self;
     blank_id := blank_id self;
     not_found_characters := l;
     phonemizer := phonemizer self;
     tokenizer := tokenizer self;
     not_found_tokenizer := not_found_tokenizer self |}.

(** The [characters] setter: it looks up the IDs of [pad] and [blank] and
    rebuilds both regular-expression tokenizers from the new vocabulary. *)
Definition set_characters (self : TTSTokenizer) (new_characters : Characters)
  : result TTSTokenizer :=
  pad_id' <-! char_to_id new_characters (pad new_characters);
  blank_id' <-! char_to_id new_characters (blank new_characters);
  let pattern := Re.compile (vocab new_characters) in
  Ok {| text_cleaner := text_cleaner self;
        use_phonemes := use_phonemes self;
        add_blank := add_blank self;
        use_eos_bos := use_eos_bos self;
        characters := new_characters;
        pad_id := pad_id';
        blank_id := blank_id';
        not_found_characters := not_found_characters self;
        phonemizer := phonemizer self;
        tokenizer := {| rt_pattern := pattern; rt_gaps := false |};
        not_found_tokenizer := {| rt_pattern := pattern; rt_gaps := true |} |}.

(** [TTSTokenizer.__init__] *)
Definition init (use_phonemes : bool) (text_cleaner : option (string -> string))
    (characters : Characters) (phonemizer : option Phonemizer)
    (add_blank use_eos_bos : bool) : result TTSTokenizer :=
  pad_id' <-! char_to_id characters (pad characters);
  blank_id' <-! char_to_id characters (blank characters);
  let pattern := Re.compile (vocab characters) in
  Ok {| text_cleaner := text_cleaner;
        use_phonemes := use_phonemes;
        add_blank := add_blank;
        use_eos_bos := use_eos_bos;
        characters := characters;
        pad_id := pad_id';
        blank_id := blank_id';
        not_found_characters := [];
        phonemizer := phonemizer;
        tokenizer := {| rt_pattern := pattern; rt_gaps := false |};
        not_found_tokenizer := {| rt_pattern := pattern; rt_gaps := true |} |}.

(** [log_not_found_characters]: append each symbol that is not yet logged. *)
Fixpoint log_loop (logged : list string) (not_found : list string) : list string :=
  match not_found with
  | [] => logged
  | char :: rest =>
      if bool_decide (char ∈ logged) then log_loop logged rest
      else log_loop (logged ++ [char]) rest
  end.

Definition log_not_found_characters (self : TTSTokenizer)
    (not_found : list string) : TTSTokenizer :=
  set_not_found_characters self (log_loop (not_found_characters self) not_found).

(** [encode]: unless [isinstance(text, list)], the text is tokenized with the
    vocabulary pattern and what the pattern does not match is logged; a list
    is taken as it is. *)
Definition encode (self : TTSTokenizer) (text : str_or_list)
  : result (list Z) * TTSTokenizer :=
  match text with
  | Str s =>
      let tokenized_text := RegexpTokenizer_tokenize (tokenizer self) s in
      let not_found := RegexpTokenizer_tokenize (not_found_tokenizer self) s in
      let self := log_not_found_characters self not_found in
      (comprehension (char_to_id (characters self)) tokenized_text, self)
  | Lst l =>
      (comprehension (char_to_id (characters self)) l, self)
  end.

(** [decode]: [text = EmptyString], then [text += id_to_char(token_id)] for each ID. *)
Fixpoint decode_loop (cs : Characters) (text : string) (token_ids : list Z)
  : result string :=
  match token_ids with
  | [] => Ok text
  | token_id :: rest =>
      c <-! id_to_char cs token_id;
      decode_loop cs (text +:+ c) rest
  end.

Definition decode (self : TTSTokenizer) (token_ids : list Z) : result string :=
  decode_loop (characters self) EmptyString token_ids.

Definition ids_to_text (self : TTSTokenizer) (id_sequence : list Z)
  : result string :=
  decode self id_sequence.

(** [pad_with_bos_eos] *)
Definition pad_with_bos_eos (self : TTSTokenizer) (char_sequence : str_or_list)
  : list string :=
  [bos (characters self)] ++ py_list char_sequence ++ [eos (characters self)].

(** An assignment to an extended slice, [result[start::step] = values]:
    the slice and the values must have the same size. *)
Definition slice_indices (start step len : nat) : list nat :=
  (fun k => start + k * step) <$> seq 0 ((len - start + (step - 1)) / step).

Fixpoint assign_each {A} (indices : list nat) (values : list A) (l : list A)
  : list A :=
  match indices, values with
  | i :: indices', v :: values' => assign_each indices' values' (<[i:=v]> l)
  | _, _ => l
  end.

Definition assign_slice {A} (start step : nat) (l values : list A)
  : result (list A) :=
  let indices := slice_indices start step (length l) in
  if bool_decide (length values = length indices)
  then Ok (assign_each indices values l)
  else Raise (ValueError "attempt to assign sequence to extended slice of another size").

(** [intersperse_blank_char] *)
Definition intersperse_blank_char (self : TTSTokenizer)
    (char_sequence : str_or_list) (use_blank_char : bool) : result (list string) :=
  let char_to_use :=
    if use_blank_char then blank (characters self) else pad (characters self) in
  let result := replicate (py_len char_sequence * 2 + 1) char_to_use in
  assign_slice 1 2 result (py_list char_sequence).

(** [text_to_ids] *)
Definition text_to_ids (self : TTSTokenizer) (text : string)
    (language : option string) : result (list Z) * TTSTokenizer :=
  let text :=
    match text_cleaner self with
    | Some clean => clean text
    | None => text
    end in
  match
    (text <-! (if use_phonemes self
               then match phonemizer self with
                    | Some p => Ok (phonemize p text EmptyString)
                    | None => Raise (AttributeError "phonemize")
                    end
               else Ok text);
     text <-! (if add_blank self
               then l <-! intersperse_blank_char self (Str text) true; Ok (Lst l)
               else Ok (Str text));
     Ok (if use_eos_bos self then Lst (pad_with_bos_eos self text) else text))
  with
  | Ok text => encode self text
  | Raise e => (Raise e, self)
  end.

(** ** Well-formed tokenizers and vocabularies *)

(** What [__init__] and the [characters] setter establish: both tokenizers
    are built from the vocabulary of [characters], and [pad_id] and
    [blank_id] are the IDs of its [pad] and [blank]. *)
Definition consistent (self : TTSTokenizer) : Prop :=
  tokenizer self =
    {| rt_pattern := Re.compile (vocab (characters self)); rt_gaps := false |}
  /\ not_found_tokenizer self =
    {| rt_pattern := Re.compile (vocab (characters self)); rt_gaps := true |}
  /\ char_to_id (characters self) (pad (characters self)) = Ok (pad_id self)
  /\ char_to_id (characters self) (blank (characters self)) = Ok (blank_id self).

Definition is_prefix (u v : string) : bool :=
  match Re.strip_prefix u v with
  | Some _ => true
  | None => false
  end.

(** No symbol of the vocabulary is the beginning of another one; every
    vocabulary of single characters is of this kind. *)
Definition prefix_free (vocab : list string) : bool :=
  forallb (fun u => forallb (fun v => implb (is_prefix u v) (String.eqb u v)) vocab)
    vocab.

(** ** The pipeline of [text_to_ids], stage by stage

    The order the stages are meant to have: clean, phonemize, intersperse
    the blank, pad with BOS and EOS, encode.  The first two work on the text,
    the next two on the sequence of symbols; each is switched by the
    configuration, the encoding is always done. *)
Inductive text_stage : Type := Clean | Phonemize.
Inductive symbol_stage : Type := IntersperseBlank | PadBosEos.

Definition text_stages : list text_stage := [Clean; Phonemize].
Definition symbol_stages : list symbol_stage := [IntersperseBlank; PadBosEos].

Definition text_stage_enabled (self : TTSTokenizer) (st : text_stage) : bool :=
  match st with
  | Clean => match text_cleaner self with Some _ => true | None => false end
  | Phonemize => use_phonemes self
  end.

Definition symbol_stage_enabled (self : TTSTokenizer) (st : symbol_stage) : bool :=
  match st with
  | IntersperseBlank => add_blank self
  | PadBosEos => use_eos_bos self
  end.

Definition run_text_stage (self : TTSTokenizer) (st : text_stage) (text : string)
  : result string :=
  match st with
  | Clean =>
      match text_cleaner self with
      | Some clean => Ok (clean text)
      | None => Ok text
      end
  | Phonemize =>
      match phonemizer self with
      | Some p => Ok (phonemize p text EmptyString)
      | None => Raise (AttributeError "phonemize")
      end
  end.

Definition run_symbol_stage (self : TTSTokenizer) (st : symbol_stage)
    (x : str_or_list) : result str_or_list :=
  match st with
  | IntersperseBlank => l <-! intersperse_blank_char self x true; Ok (Lst l)
  | PadBosEos => Ok (Lst (pad_with_bos_eos self x))
  end.

(** Run the stages of [l] once each, from left to right. *)
Fixpoint run_stages {S A} (run : S -> A -> result A) (l : list S) (a : A)
  : result A :=
  match l with
  | [] => Ok a
  | st :: l' => a' <-! run st a; run_stages run l' a'
  end.

Definition staged_text_to_ids (self : TTSTokenizer) (text : string)
  : result (list Z) * TTSTokenizer :=
  match
    (text <-! run_stages (run_text_stage self)
                (filter (fun st => text_stage_enabled self st = true) text_stages) text;
     run_stages (run_symbol_stage self)
       (filter (fun st => symbol_stage_enabled self st = true) symbol_stages)
       (Str text))
  with
  | Ok x => encode self x
  | Raise e => (Raise e, self)
  end.

(** ** How a call may change the tokenizer *)

(** [grows self self']: [self'] is [self] with new symbols appended to
    [not_found_characters]: nothing else differs, what was logged stays in
    place, and what is appended was absent and is appended once. *)
Definition grows (self self' : TTSTokenizer) : Prop :=
  exists ext,
    self' = set_not_found_characters self (not_found_characters self ++ ext)
    /\ NoDup ext
    /\ forall x, x ∈ ext -> x ∉ not_found_characters self.

(** ** Assigning [characters], step by step

    The setter stores the new character set first and looks up the IDs
    afterwards: when a lookup raises, what was assigned before it stays
    assigned. *)
Definition assign_characters (self : TTSTokenizer) (new_characters : Characters)
  : result unit * TTSTokenizer :=
  let self1 :=
    {| text_cleaner := text_cleaner self;
       use_phonemes := use_phonemes self;
       add_blank := add_blank self;
       use_eos_bos := use_eos_bos self;
       characters := new_characters;
       pad_id := pad_id self;
       blank_id := blank_id self;
       not_found_characters := not_found_characters self;
       phonemizer := phonemizer self;
       tokenizer := tokenizer self;
       not_found_tokenizer := not_found_tokenizer self |} in
  match char_to_id new_characters (pad new_characters) with
  | Raise e => (Raise e, self1)
  | Ok pad_id' =>
      let self2 :=
        {| text_cleaner := text_cleaner self;
           use_phonemes := use_phonemes self;
           add_blank := add_blank self;
           use_eos_bos := use_eos_bos self;
           characters := new_characters;
           pad_id := pad_id';
           blank_id := blank_id self;
           not_found_characters := not_found_characters self;
           phonemizer := phonemizer self;
           tokenizer := tokenizer self;
           not_found_tokenizer := not_found_tokenizer self |} in
      match char_to_id new_characters (blank new_characters) with
      | Raise e => (Raise e, self2)
      | Ok blank_id' =>
          let pattern := Re.compile (vocab new_characters) in
          (Ok tt,
           {| text_cleaner := text_cleaner self;
              use_phonemes := use_phonemes self;
              add_blank := add_blank self;
              use_eos_bos := use_eos_bos self;
              characters := new_characters;
              pad_id := pad_id';
              blank_id := blank_id';
              not_found_characters := not_found_characters self;
              phonemizer := phonemizer self;
              tokenizer := {| rt_pattern := pattern; rt_gaps := false |};
              not_found_tokenizer := {| rt_pattern := pattern; rt_gaps := true |} |})
      end
  end.

(** The tokenizers a program can hold: built by [__init__], then used through
    [encode], [text_to_ids], [log_not_found_characters] and assignments to
    [characters] that did not raise. *)
Inductive reachable : TTSTokenizer -> Prop :=
| reachable_init ph tc cs pz ab eb self :
    init ph tc cs pz ab eb = Ok self -> reachable self
| reachable_encode self x :
    reachable self -> reachable (snd (encode self x))
| reachable_text_to_ids self text language :
    reachable self -> reachable (snd (text_to_ids self text language))
| reachable_log self not_found :
    reachable self -> reachable (log_not_found_characters self not_found)
| reachable_assign self cs self' :
    reachable self -> assign_characters self cs = (Ok tt, self') ->
    reachable self'.

(** An ID the character set can map back. *)
Definition valid_id (cs : Characters) (id : Z) : Prop :=
  (0 <= id < Z.of_nat (length (vocab cs)))%Z.

(** Reading an extended slice, [l[start::step]]. *)
Definition get_slice {A} (start step : nat) (l : list A) : list A :=
  omap (fun i => l !! i) (slice_indices start step (length l)).

(** ** Sample objects *)

Definition abc_characters : Characters :=
  {| vocab := ["<PAD>"; "<BLNK>"; "<BOS>"; "<EOS>"; "a"; "b"; "c"];
     pad := "<PAD>"; blank := "<BLNK>"; bos := "<BOS>"; eos := "<EOS>" |}.

(** A vocabulary in which the symbol "a" begins the symbol "ab". *)
Definition ab_characters : Characters :=
  {| vocab := ["<PAD>"; "<BLNK>"; "<BOS>"; "<EOS>"; "a"; "ab"];
     pad := "<PAD>"; blank := "<BLNK>"; bos := "<BOS>"; eos := "<EOS>" |}.

(** The tokenizer [TTSTokenizer(characters=cs, add_blank=..., use_eos_bos=...)]
    of a character set whose [pad] and [blank] have the IDs 0 and 1. *)
Definition sample_tokenizer (cs : Characters) (add_blank use_eos_bos : bool)
  : TTSTokenizer :=
  {| text_cleaner := None;
     use_phonemes := false;
     add_blank := add_blank;
     use_eos_bos := use_eos_bos;
     characters := cs;
     pad_id := 0;
     blank_id := 1;
     not_found_characters := [];
     phonemizer := None;
     tokenizer := {| rt_pattern := Re.compile (vocab cs); rt_gaps := false |};
     not_found_tokenizer := {| rt_pattern := Re.compile (vocab cs); rt_gaps := true |} |}.

(** * The rest of the code

    ** Exceptions outside the tokenizer class *)

Inductive py_exn : Type :=
| Exn (e : exn)                          (* one of the exceptions above *)
| UnboundLocalError (variable : string)  (* a local variable read before any assignment *)
| TypeError (msg : string)
| KeyError (key : string)                (* a missing dictionary key *)
| IndexError (msg : string)              (* an index outside the range *)
| AssertionError
| ExternalError (msg : string).          (* raised inside a collaborator *)

Inductive outcome (A : Type) : Type :=
| Return (a : A)
| Throw (e : py_exn).
Arguments Return {A} a.
Arguments Throw {A} e.

Definition obind {A B} (r : outcome A) (k : A -> outcome B) : outcome B :=
  match r with
  | Return a => k a
  | Throw e => Throw e
  end.

Notation "x <-? r ; k" := (obind r (fun x => k))
  (at level 100, r at next level, right associativity).

Definition lift {A} (r : result A) : outcome A :=
  match r with
  | Ok a => Return a
  | Raise e => Throw (Exn e)
  end.

Fixpoint comprehension_o {A B} (f : A -> outcome B) (l : list A) : outcome (list B) :=
  match l with
  | [] => Return []
  | x :: l' => y <-? f x; ys <-? comprehension_o f l'; Return (y :: ys)
  end.

(** ** [TTSTokenizer.init_from_config] *)

(** What [config.text_cleaner] holds: a string, a list, or something else
    (such as [None]). *)
Inductive config_value : Type :=
| CfgStr (s : string)
| CfgList (l : list string)
| CfgOther.

(** The fields of the configuration that [init_from_config] reads;
    [cfg_phonemizer] is [None] when the key is absent or holds [None]. *)
Record Coqpit : Type := {
  cfg_text_cleaner : config_value;
  cfg_use_phonemes : bool;
  cfg_phoneme_language : string;
  cfg_phonemizer : option string;
  cfg_add_blank : bool;
  cfg_enable_eos_bos_chars : bool
}.

Module FromConfig.
Section Collaborators.

(** [getattr(cleaners, name)]: the attributes of the module [cleaners]. *)
Variable cleaners : string -> option (string -> string).
(** [IPAPhonemes().init_from_config] and [Graphemes().init_from_config] *)
Variable IPAPhonemes_init_from_config : Coqpit -> outcome Characters.
Variable Graphemes_init_from_config : Coqpit -> outcome Characters.
(** [get_phonemizer_by_name(name, language=...)] *)
Variable get_phonemizer_by_name : string -> string -> outcome Phonemizer.
Variable DEF_LANG_TO_PHONEMIZER : gmap string string.

(** [config.phonemizer] is there and is not the empty string. *)
Definition explicit_phonemizer (config : Coqpit) : option string :=
  match cfg_phonemizer config with
  | Some n => if Re.is_empty n then None else Some n
  | None => None
  end.

(** The two locals [text_cleaner] and [phonemizer] are assigned on some
    paths only: [None] stands for a local without a value, and reading it in
    the final call raises. *)
Definition init_from_config (config : Coqpit) : outcome TTSTokenizer :=
  text_cleaner_local <-?
    match cfg_text_cleaner config with
    | CfgStr n =>
        match cleaners n with
        | Some clean => Return (Some clean)
        | None => Throw (Exn (AttributeError n))
        end
    | CfgList _ => Throw (TypeError "attribute name must be string")
    | CfgOther => Return None
    end;
  locals <-?
    (if cfg_use_phonemes config
     then
       characters <-? IPAPhonemes_init_from_config config;
       phonemizer <-?
         match explicit_phonemizer config with
         | Some n => get_phonemizer_by_name n (cfg_phoneme_language config)
         | None =>
             match DEF_LANG_TO_PHONEMIZER !! cfg_phoneme_language config with
             | Some n => get_phonemizer_by_name n (cfg_phoneme_language config)
             | None => Throw (KeyError (cfg_phoneme_language config))
             end
         end;
       Return (characters, Some phonemizer)
     else
       characters <-? Graphemes_init_from_config config;
       Return (characters, None));
  text_cleaner <-?
    match text_cleaner_local with
    | Some clean => Return clean
    | None => Throw (UnboundLocalError "text_cleaner")
    end;
  phonemizer <-?
    match snd locals with
    | Some p => Return p
    | None => Throw (UnboundLocalError "phonemizer")
    end;
  lift (init (cfg_use_phonemes config) (Some text_cleaner) (fst locals)
          (Some phonemizer) (cfg_add_blank config) (cfg_enable_eos_bos_chars config)).

End Collaborators.
End FromConfig.

(** ** [utils/data.py]: padding arrays

    A one-dimensional array is a list, a two-dimensional one a list of rows,
    a three-dimensional one a list of those; [ndarray] is an argument whose
    number of dimensions the function has yet to look at. *)
Module Data.
Section Arrays.

Variable elt : Type.
(** The constant the arrays are padded with, [0] in the type of the array. *)
Variable zero : elt.

(** An array of no dimension holds one entry.  Of an array of four or more
    dimensions the functions below read the number of dimensions and
    [shape[0]] only, and these are what [ArrN] keeps: [4 + more] dimensions,
    the first of size [shape0]. *)
Inductive ndarray : Type :=
| Arr0 (a : elt)
| Arr1 (v : list elt)
| Arr2 (m : list (list elt))
| Arr3 (t : list (list (list elt)))
| ArrN (more : nat) (shape0 : nat).

Definition ndim (x : ndarray) : nat :=
  match x with
  | Arr0 _ => 0
  | Arr1 _ => 1
  | Arr2 _ => 2
  | Arr3 _ => 3
  | ArrN more _ => 4 + more
  end.

(** [len(x)], which is [x.shape[0]] when [x] has a dimension *)
Definition len (x : ndarray) : outcome nat :=
  match x with
  | Arr0 _ => Throw (TypeError "len() of unsized object")
  | Arr1 v => Return (length v)
  | Arr2 m => Return (length m)
  | Arr3 t => Return (length t)
  | ArrN _ shape0 => Return shape0
  end.

(** [np.pad(v, (0, after), mode='constant', constant_values=0)] *)
Definition np_pad_after (v : list elt) (after : Z) : outcome (list elt) :=
  if (after <? 0)%Z
  then Throw (Exn (ValueError "index can't contain negative values"))
  else Return (v ++ replicate (Z.to_nat after) zero).

(** [pad_data]: the assertion on [x.ndim], then the padding by
    [length - x.shape[0]]. *)
Definition pad_data (x : ndarray) (length : Z) : outcome (list elt) :=
  match x with
  | Arr1 v => np_pad_after v (length - Z.of_nat (Datatypes.length v))
  | _ => Throw AssertionError
  end.

(** [max(...)] of the lengths *)
Definition py_max (l : list nat) : outcome nat :=
  match l with
  | [] => Throw (Exn (ValueError "max() arg is an empty sequence"))
  | n :: l' => Return (foldl Nat.max n l')
  end.

(** [np.stack] of one-dimensional arrays *)
Definition np_stack (rows : list (list elt)) : outcome (list (list elt)) :=
  match rows with
  | [] => Throw (Exn (ValueError "need at least one array to stack"))
  | r :: rs =>
      if forallb (fun r' => length r' =? length r) rs
      then Return rows
      else Throw (Exn (ValueError "all input arrays must have the same shape"))
  end.

(** [prepare_data]: [max] runs through the generator [len(x) for x in inputs]
    to its end before any array is padded. *)
Definition prepare_data (inputs : list ndarray) : outcome (list (list elt)) :=
  lens <-? comprehension_o len inputs;
  max_len <-? py_max lens;
  rows <-? comprehension_o (fun x => pad_data x (Z.of_nat max_len)) inputs;
  np_stack rows.

(** [pad_per_step]: [timesteps = inputs.shape[-1]] needs a dimension; then
    [np.pad(inputs, [[0, 0], [0, 0], [0, pad_len]], mode='constant',
    constant_values=0.0)], which checks the pad widths first and matches them
    with the dimensions afterwards. *)
Definition pad_per_step (inputs : ndarray) (pad_len : Z)
  : outcome (list (list (list elt))) :=
  match inputs with
  | Arr0 _ => Throw (IndexError "tuple index out of range")
  | _ =>
      if (pad_len <? 0)%Z
      then Throw (Exn (ValueError "index can't contain negative values"))
      else match inputs with
           | Arr3 t =>
               Return (map (map (fun row => row ++ replicate (Z.to_nat pad_len) zero)) t)
           | _ => Throw (Exn (ValueError "operands could not be broadcast together"))
           end
  end.

(** A three-dimensional array of shape [(a, b, c)]. *)
Definition has_shape (t : list (list (list elt))) (a b c : nat) : Prop :=
  length t = a
  /\ Forall (fun m => length m = b /\ Forall (fun row => length row = c) m) t.

End Arrays.
End Data.

(** ** [xtts_demo.py]: the logger that replaces [sys.stdout] *)
Module Demo.

(** The logger with its two streams: what the terminal has received, what
    was written to the log file and is still in its buffer, and what of the
    log file is on disk. *)
Record Logger : Type := {
  log_file : string;
  terminal : string;
  log_buffer : string;
  log_on_disk : string
}.

Definition LF : Ascii.ascii := Ascii.ascii_of_nat 10.

(** The log file is opened in text mode.  On writing, every line feed
    becomes the line separator of the platform, [os.linesep]. *)
Fixpoint translate_on_write (linesep : string) (s : string) : string :=
  match s with
  | EmptyString => EmptyString
  | String c s' =>
      if Ascii.eqb c LF then linesep +:+ translate_on_write linesep s'
      else String c (translate_on_write linesep s')
  end.




Definition write (linesep : string) (self : Logger) (message : string) : Logger :=
  {| log_file := log_file self;
     terminal := terminal self +:+ message;
     log_buffer := log_buffer self +:+ translate_on_write linesep message;
     log_on_disk := log_on_disk self |}.

Definition flush (self : Logger) : Logger :=
  {| log_file := log_file self;
     terminal := terminal self;
     log_buffer := EmptyString;
     log_on_disk := log_on_disk self +:+ log_buffer self |}.

Definition isatty (self : Logger) : bool := false.

Fixpoint take_string (n : nat) (s : string) : string :=
  match n, s with
  | S n', String c s' => String c (take_string n' s')
  | _, _ => EmptyString
  end.

Fixpoint drop_string (n : nat) (s : string) : string :=
  match n, s with
  | S n', String c s' => drop_string n' s'
  | _, _ => s
  end.

(** The file object may write the beginning of its buffer to disk at any
    time, for instance when the buffer is full. *)
Definition spill (n : nat) (self : Logger) : Logger :=
  {| log_file := log_file self;
     terminal := terminal self;
     log_buffer := drop_string n (log_buffer self);
     log_on_disk := log_on_disk self +:+ take_string n (log_buffer self) |}.


(** What happens to the logger between two calls of [read_logs]. *)
Inductive event : Type :=
| Write (message : string)
| Flush
| Spill (n : nat).

Definition step (linesep : string) (self : Logger) (ev : event) : Logger :=
  match ev with
  | Write message => write linesep self message
  | Flush => flush self
  | Spill n => spill n self
  end.


Section Preprocess.

(** [format_audio_list([audio_path], target_language, out_path, ...)] *)
Variable format_audio_list : list string -> string -> string -> outcome (string * string).


End Preprocess.
End Demo.

(** ** Sample collaborators of [init_from_config] *)

Definition sample_cleaners (n : string) : option (string -> string) :=
  if String.eqb n "basic_cleaners" then Some (fun text => text) else None.

Definition sample_character_set (config : Coqpit) : outcome Characters :=
  Return abc_characters.

Definition sample_get_phonemizer (n language : string) : outcome Phonemizer :=
  if String.eqb n "ko_kr_phonemizer"
  then Return (KO_KR_Phonemizer.new (fun text separator => text) EmptyString true)
  else Throw (ExternalError "phonemizer not found").

Definition sample_default_phonemizers : gmap string string :=
  {[ "ko-kr" := "ko_kr_phonemizer" ]}.

Definition sample_config (use_phonemes : bool) (text_cleaner : config_value)
  : Coqpit :=
  {| cfg_text_cleaner := text_cleaner;
     cfg_use_phonemes := use_phonemes;
     cfg_phoneme_language := "ko-kr";
     cfg_phonemizer := None;
     cfg_add_blank := true;
     cfg_enable_eos_bos_chars := false |}.

(** * Properties *)

(** ** The regular-expression model on sample inputs *)

Example findall_ordered_choice :
  Re.findall (Re.compile ["a"; "ab"]) "ab" = ["a"].
Proof. reflexivity. Qed.

Example findall_empty_alternative :
  Re.findall (Re.compile [EmptyString; "a"]) "xay" = [EmptyString; EmptyString; "a"; EmptyString; EmptyString]
  /\ Re.split (Re.compile [EmptyString; "a"]) "xay" = [EmptyString; "x"; EmptyString; EmptyString; "y"; EmptyString]
  /\ Re.findall (Re.compile ["a"; EmptyString]) "aab" = ["a"; "a"; EmptyString; EmptyString]
  /\ Re.split (Re.compile ["a"; EmptyString]) "aab" = [EmptyString; EmptyString; EmptyString; "b"; EmptyString]
  /\ Re.findall (Re.compile []) "ab" = [EmptyString; EmptyString; EmptyString].
Proof. repeat split. Qed.

Example tokenize_gaps :
  RegexpTokenizer_tokenize {| rt_pattern := Re.compile ["a"; "b"; "c"]; rt_gaps := true |} "azzbzc"
  = ["zz"; "z"].
Proof. reflexivity. Qed.

(** ** The error monad and comprehensions *)

Lemma comprehension_Ok {A B} (f : A -> result B) (g : A -> B) (l : list A) :
  Forall (fun x => f x = Ok (g x)) l -> comprehension f l = Ok (g <$> l).
Proof.
  induction 1 as [|x l Hx _ IH]; simpl; [done|].
  by rewrite Hx; simpl; rewrite IH.
Qed.

Lemma comprehension_Raise {A B} (f : A -> result B) (g : A -> B) l1 x l2 e :
  Forall (fun y => f y = Ok (g y)) l1 -> f x = Raise e ->
  comprehension f (l1 ++ x :: l2) = Raise e.
Proof.
  induction 1 as [|y l Hy _ IH]; simpl; intros Hx.
  - by rewrite Hx.
  - by rewrite Hy; simpl; rewrite IH.
Qed.

Lemma length_chars s : length (chars s) = String.length s.
Proof. induction s; simpl; congruence. Qed.

Lemma py_len_list x : py_len x = length (py_list x).
Proof. destruct x; simpl; [by rewrite length_chars | done]. Qed.

(** ** The scan of the regular expression *)

Module ReFacts.
Import Re.

Lemma app_nil_l (s : string) : EmptyString +:+ s = s.
Proof. reflexivity. Qed.

Lemma app_cons c (s t : string) : String c s +:+ t = String c (s +:+ t).
Proof. reflexivity. Qed.

Ltac app_simpl := rewrite ?app_cons, ?app_nil_l in *; simpl in *.

Lemma app_empty_r (s : string) : s +:+ EmptyString = s.
Proof. induction s; app_simpl; congruence. Qed.

Lemma app_assoc (a b c : string) : (a +:+ b) +:+ c = a +:+ b +:+ c.
Proof. induction a; app_simpl; congruence. Qed.

Lemma length_app (a b : string) :
  String.length (a +:+ b) = String.length a + String.length b.
Proof. induction a; app_simpl; lia. Qed.

Lemma is_empty_true s : is_empty s = true <-> s = EmptyString.
Proof. by destruct s. Qed.

Lemma is_empty_false s : is_empty s = false <-> s <> EmptyString.
Proof. by destruct s. Qed.

Lemma strip_prefix_Some lit s rest :
  strip_prefix lit s = Some rest <-> s = lit +:+ rest.
Proof.
  revert s; induction lit as [|a lit IH]; intros s; app_simpl.
  - split; congruence.
  - destruct s as [|b s]; [split; discriminate|].
    destruct (Ascii.eqb_spec a b) as [->|Hne].
    + rewrite IH. split; [by intros -> | by intros [= ->]].
    + split; [discriminate | by intros [= ? _]].
Qed.

Lemma strip_prefix_app lit rest : strip_prefix lit (lit +:+ rest) = Some rest.
Proof. by apply strip_prefix_Some. Qed.

Lemma match_at_Some p adv s m rest :
  match_at p adv s = Some (m, rest) ->
  m ∈ p /\ s = m +:+ rest /\ (adv = true -> m <> EmptyString).
Proof.
  induction p as [|lit p IH]; simpl; [discriminate|].
  destruct (strip_prefix lit s) as [r|] eqn:Hs.
  - destruct (adv && is_empty lit) eqn:Hadv.
    + intros H. destruct (IH H) as (? & ? & ?). split; [by right | done].
    + intros [= <- <-]. apply strip_prefix_Some in Hs.
      split; [by left | split; [done|]].
      intros ->. simpl in Hadv. by apply is_empty_false.
  - intros H. destruct (IH H) as (? & ? & ?). split; [by right | done].
Qed.

(** A match attempt fails only if no admissible alternative is a prefix. *)
Lemma match_at_None p adv s lit rest :
  match_at p adv s = None -> lit ∈ p -> s = lit +:+ rest ->
  adv = true /\ lit = EmptyString.
Proof.
  induction p as [|x p IH]; simpl; intros Hm Hin Hs.
  - by apply elem_of_nil in Hin.
  - apply elem_of_cons in Hin as [<-|Hin].
    + rewrite Hs, strip_prefix_app in Hm.
      destruct (adv && is_empty lit) eqn:Hadv; [|discriminate].
      apply andb_true_iff in Hadv as [? ?]. by rewrite <- is_empty_true.
    + destruct (strip_prefix x s); [destruct (adv && is_empty x)|];
        try discriminate; by apply IH.
Qed.

Lemma steps_pos adv s : 0 < steps adv s.
Proof. unfold steps. destruct adv; lia. Qed.

(** More fuel than [steps] changes nothing. *)
Lemma scan_fuel_enough p f1 f2 adv s :
  steps adv s <= f1 -> steps adv s <= f2 ->
  scan_fuel f1 p adv s = scan_fuel f2 p adv s.
Proof.
  revert f2 adv s; induction f1 as [|f1 IH]; intros f2 adv s H1 H2.
  { pose proof (steps_pos adv s). lia. }
  destruct f2 as [|f2]; [pose proof (steps_pos adv s); lia|].
  simpl. destruct (match_at p adv s) as [[m rest]|] eqn:Hm.
  - apply match_at_Some in Hm as (_ & -> & Hadv).
    rewrite (IH f2); [done| |].
    all: unfold steps in *; rewrite length_app in *.
    all: destruct m as [|c m]; app_simpl;
      [destruct adv; [by destruct Hadv | lia] | destruct adv; lia].
  - destruct s as [|c s]; [done|].
    rewrite (IH f2); [done| |]; unfold steps in *; simpl in *; destruct adv; lia.
Qed.

(** The loop of the scan, one equation per case. *)
Lemma scan_fuel_match p f adv s m rest :
  steps adv s <= f -> match_at p adv s = Some (m, rest) ->
  scan_fuel f p adv s =
    ((EmptyString, m) :: fst (scan_fuel (steps (is_empty m) rest) p (is_empty m) rest),
     snd (scan_fuel (steps (is_empty m) rest) p (is_empty m) rest)).
Proof.
  intros Hf Hm. destruct f as [|f]; [pose proof (steps_pos adv s); lia|].
  simpl. rewrite Hm.
  apply match_at_Some in Hm as (_ & -> & Hadv).
  rewrite (scan_fuel_enough p f (steps (is_empty m) rest)); [by destruct scan_fuel| |done].
  unfold steps in *; rewrite length_app in *.
  destruct m as [|c m]; app_simpl;
    [destruct adv; [by destruct Hadv | lia] | destruct adv; lia].
Qed.

Lemma scan_fuel_skip p f adv c s :
  steps adv (String c s) <= f -> match_at p adv (String c s) = None ->
  scan_fuel f p adv (String c s) =
    skip_char c (scan_fuel (steps false s) p false s).
Proof.
  intros Hf Hm. destruct f as [|f]; [pose proof (steps_pos adv (String c s)); lia|].
  simpl. rewrite Hm. f_equal. apply scan_fuel_enough; [|done].
  unfold steps in *; simpl in *; destruct adv; lia.
Qed.

Lemma scan_fuel_end p f adv :
  match_at p adv EmptyString = None -> scan_fuel f p adv EmptyString = ([], EmptyString).
Proof. intros Hm. destruct f; [done|]. simpl. by rewrite Hm. Qed.

End ReFacts.

Module ScanFacts.
Import Re ReFacts.

Section Scan.
Variable p : pattern.

Local Abbreviation run := (Re.run p).

(** Induction along the loop of the scan: the end of the text, a skipped
    character, a match. *)
Lemma run_ind (P : bool -> string -> scanned -> Prop) :
  (forall adv, match_at p adv EmptyString = None -> P adv EmptyString ([], EmptyString)) ->
  (forall adv c s, match_at p adv (String c s) = None ->
     P false s (run false s) ->
     P adv (String c s) (skip_char c (run false s))) ->
  (forall adv s m rest, match_at p adv s = Some (m, rest) ->
     P (is_empty m) rest (run (is_empty m) rest) ->
     P adv s ((EmptyString, m) :: fst (run (is_empty m) rest),
              snd (run (is_empty m) rest))) ->
  forall adv s, P adv s (run adv s).
Proof.
  intros Hend Hskip Hmatch adv s.
  remember (steps adv s) as n eqn:Hn.
  revert adv s Hn. induction (lt_wf n) as [n _ IH]. intros adv s ->.
  unfold Re.run. destruct (match_at p adv s) as [[m rest]|] eqn:Hm.
  - rewrite (scan_fuel_match p _ adv s m rest) by done.
    apply Hmatch; [done|]. apply (IH (steps (is_empty m) rest)); [|done].
    apply match_at_Some in Hm as (_ & -> & Hadv).
    unfold steps; rewrite length_app.
    destruct m as [|c m]; app_simpl;
      [destruct adv; [by destruct Hadv | lia] | destruct adv; lia].
  - destruct s as [|c s].
    + rewrite scan_fuel_end by done. by apply Hend.
    + rewrite scan_fuel_skip by done.
      apply Hskip; [done|]. apply (IH (steps false s)); [|done].
      unfold steps; simpl; destruct adv; lia.
Qed.

Lemma reassemble_skip_char c r :
  reassemble (skip_char c r) = String c (reassemble r).
Proof. by destruct r as [[|[gap m] ms] tl]. Qed.

Lemma reassemble_run adv s : reassemble (run adv s) = s.
Proof.
  apply (run_ind (fun _ s r => reassemble r = s)); clear adv s.
  - done.
  - intros adv c s _ IH. by rewrite reassemble_skip_char, IH.
  - intros adv s m rest Hm IH.
    apply match_at_Some in Hm as (_ & -> & _).
    unfold reassemble in *; simpl. by rewrite IH.
Qed.

Lemma matches_skip_char c r : (fst (skip_char c r)).*2 = (fst r).*2.
Proof. by destruct r as [[|[gap m] ms] tl]. Qed.

(** Every match is one of the alternatives. *)
Lemma run_matches adv s : Forall (fun m => m ∈ p) (fst (run adv s)).*2.
Proof.
  apply (run_ind (fun _ _ r => Forall (fun m => m ∈ p) (fst r).*2));
    clear adv s.
  - intros; simpl. constructor.
  - intros adv c s _ IH. by rewrite matches_skip_char.
  - intros adv s m rest Hm IH. simpl. constructor; [|done].
    by apply match_at_Some in Hm as (? & _).
Qed.

Lemma gaps_skip_char c r : gaps (skip_char c r) <> [].
Proof.
  destruct r as [[|[gap m] ms] tl]; unfold gaps; simpl.
  - by rewrite filter_cons_True.
  - by rewrite filter_cons_True.
Qed.

(** Without gaps the matches are the whole text. *)
Lemma run_no_gaps adv s :
  gaps (run adv s) = [] -> spell (fst (run adv s)).*2 = s.
Proof.
  intros Hg. rewrite <- (reassemble_run adv s) at 2. revert Hg.
  generalize (run adv s) as r. intros [ms tl]. unfold gaps, reassemble; simpl.
  induction ms as [|[gap m] ms IH]; simpl.
  - destruct tl; [done|]. by rewrite filter_cons_True.
  - destruct gap; [|by rewrite filter_cons_True].
    rewrite filter_cons_False by (by intros []). intros Hg.
    by rewrite app_nil_l, <- (IH Hg).
Qed.

End Scan.
End ScanFacts.

(** ** The character set *)

Lemma index_from_Some k x l i :
  index_from k x l = Some i -> exists j, i = k + j /\ l !! j = Some x.
Proof.
  revert k; induction l as [|y l IH]; intros k; simpl; [discriminate|].
  destruct (String.eqb_spec y x) as [->|_].
  - intros [= <-]. exists 0. split; [lia | done].
  - intros H. destruct (IH _ H) as (j & -> & Hj). exists (S j). split; [lia | done].
Qed.

Lemma index_from_elem k x l : x ∈ l -> is_Some (index_from k x l).
Proof.
  revert k; induction l as [|y l IH]; intros k Hin; simpl.
  - by apply elem_of_nil in Hin.
  - destruct (String.eqb_spec y x) as [->|Hne]; [by eexists|].
    apply elem_of_cons in Hin as [->|Hin]; [done | by apply IH].
Qed.

Lemma index_from_None k x l : index_from k x l = None -> x ∉ l.
Proof.
  revert k; induction l as [|y l IH]; intros k; simpl.
  - intros _. apply not_elem_of_nil.
  - destruct (String.eqb_spec y x) as [->|Hne]; [discriminate|].
    intros H. apply not_elem_of_cons. split; [done | by eapply IH].
Qed.

Lemma id_to_char_of_nat cs i x :
  vocab cs !! i = Some x -> id_to_char cs (Z.of_nat i) = Ok x.
Proof.
  intros Hi. unfold id_to_char.
  destruct (Z.ltb_spec (Z.of_nat i) 0) as [?|_]; [lia|].
  by rewrite Nat2Z.id, Hi.
Qed.

(** A symbol of the vocabulary has an ID, and that ID names the symbol. *)
Lemma char_to_id_elem cs x :
  x ∈ vocab cs ->
  exists id, char_to_id cs x = Ok id /\ id_to_char cs id = Ok x.
Proof.
  intros Hin. unfold char_to_id.
  destruct (index_from_elem 0 x _ Hin) as [i Hi]. rewrite Hi.
  apply index_from_Some in Hi as (j & -> & Hj).
  eexists; split; [done|]. by apply id_to_char_of_nat.
Qed.

Lemma char_to_id_not_elem cs x :
  x ∉ vocab cs -> char_to_id cs x = Raise (UnknownSymbolError x).
Proof.
  intros Hx. unfold char_to_id.
  destruct (index_from 0 x (vocab cs)) as [i|] eqn:Hi; [|done].
  apply index_from_Some in Hi as (j & _ & Hj).
  destruct Hx. by eapply list_elem_of_lookup_2.
Qed.

Lemma char_to_id_Ok cs x id : char_to_id cs x = Ok id -> x ∈ vocab cs.
Proof.
  unfold char_to_id. destruct (index_from 0 x (vocab cs)) as [i|] eqn:Hi; [|done].
  intros _. apply index_from_Some in Hi as (j & _ & Hj).
  by eapply list_elem_of_lookup_2.
Qed.

(** Symbols of the vocabulary encode, and the IDs decode to what the symbols
    spell. *)
Lemma encode_decode_symbols cs symbols acc :
  Forall (fun x => x ∈ vocab cs) symbols ->
  exists ids, comprehension (char_to_id cs) symbols = Ok ids
    /\ decode_loop cs acc ids = Ok (acc +:+ spell symbols).
Proof.
  intros Hall. revert acc. induction Hall as [|x l Hx _ IH]; intros acc.
  - exists []. split; [done|]. simpl. by rewrite ReFacts.app_empty_r.
  - destruct (char_to_id_elem cs x Hx) as (id & Hid & Hback).
    destruct (IH (acc +:+ x)) as (ids & Hids & Hdec).
    exists (id :: ids). simpl. rewrite Hid; simpl. rewrite Hids; simpl.
    split; [done|]. rewrite Hback; simpl. by rewrite Hdec, ReFacts.app_assoc.
Qed.

(** ** Consistent tokenizers *)

Lemma consistent_vocab self : consistent self -> vocab (characters self) <> [].
Proof.
  intros (_ & _ & Hpad & _) Hnil. apply char_to_id_Ok in Hpad.
  rewrite Hnil in Hpad. by apply elem_of_nil in Hpad.
Qed.

Lemma consistent_compile self :
  consistent self ->
  Re.compile (vocab (characters self)) = vocab (characters self).
Proof.
  intros H. apply consistent_vocab in H. by destruct (vocab (characters self)).
Qed.

Lemma init_consistent ph tc cs pz ab eb self :
  init ph tc cs pz ab eb = Ok self -> consistent self.
Proof.
  unfold init. destruct (char_to_id cs (pad cs)) eqn:Hp; [|done].
  destruct (char_to_id cs (blank cs)) eqn:Hb; [|done].
  simpl. intros [= <-]. by repeat split.
Qed.

Lemma set_characters_consistent self cs self' :
  set_characters self cs = Ok self' -> consistent self'.
Proof.
  unfold set_characters. destruct (char_to_id cs (pad cs)) eqn:Hp; [|done].
  destruct (char_to_id cs (blank cs)) eqn:Hb; [|done].
  simpl. intros [= <-]. by repeat split.
Qed.

Lemma set_not_found_characters_id self :
  set_not_found_characters self (not_found_characters self) = self.
Proof. by destruct self. Qed.

(** [encode] of a string, in terms of the scan of the vocabulary pattern. *)
Lemma encode_Str self text :
  consistent self ->
  encode self (Str text) =
    (comprehension (char_to_id (characters self))
       (fst (Re.scan (vocab (characters self)) text)).*2,
     log_not_found_characters self
       (Re.gaps (Re.scan (vocab (characters self)) text))).
Proof.
  intros Hc. pose proof (consistent_compile self Hc) as Hv.
  destruct Hc as (Ht & Hn & _). unfold encode.
  rewrite Ht, Hn, Hv. done.
Qed.

(** ** Prefix-free vocabularies *)

Module PrefixFree.
Import Re ReFacts ScanFacts.

Lemma is_prefix_true u v : is_prefix u v = true <-> exists w, v = u +:+ w.
Proof.
  unfold is_prefix. destruct (strip_prefix u v) as [w|] eqn:H.
  - apply strip_prefix_Some in H. split; [by exists w | done].
  - split; [done|]. intros [w Hw]. apply strip_prefix_Some in Hw. congruence.
Qed.

(** Two beginnings of one text: one of them begins the other. *)
Lemma prefixes_comparable (a b x y : string) :
  a +:+ x = b +:+ y -> is_prefix a b = true \/ is_prefix b a = true.
Proof.
  revert b; induction a as [|c a IH]; intros b H.
  - left. apply is_prefix_true. by exists b.
  - destruct b as [|d b]; [right; apply is_prefix_true; by eexists|].
    app_simpl. injection H as -> H. destruct (IH _ H) as [Hp|Hp].
    + left. apply is_prefix_true in Hp as [w ->]. apply is_prefix_true. by exists w.
    + right. apply is_prefix_true in Hp as [w ->]. apply is_prefix_true. by exists w.
Qed.

Lemma prefix_free_eq voc u v :
  prefix_free voc = true -> u ∈ voc -> v ∈ voc -> is_prefix u v = true -> u = v.
Proof.
  unfold prefix_free. rewrite forallb_forall. intros H Hu Hv Hp.
  apply list_elem_of_In in Hu, Hv. specialize (H u Hu).
  rewrite forallb_forall in H. specialize (H v Hv).
  rewrite Hp in H. simpl in H. by apply String.eqb_eq.
Qed.

(** A non-empty spelled text begins with a non-empty symbol. *)
Lemma spell_cons (P : string -> Prop) symbols c s :
  Forall P symbols -> spell symbols = String c s ->
  exists lit rest, P lit /\ lit <> EmptyString /\ Forall P rest
    /\ String c s = lit +:+ spell rest.
Proof.
  induction 1 as [|x l Hx Hl IH]; simpl; [discriminate|].
  destruct x as [|d x].
  - rewrite app_nil_l. apply IH.
  - intros Hs. exists (String d x), l. by rewrite Hs.
Qed.

Lemma gaps_match m ms tl : gaps ((EmptyString, m) :: ms, tl) = gaps (ms, tl).
Proof. unfold gaps. simpl. by rewrite filter_cons_False by (by intros []). Qed.

(** Over a prefix-free vocabulary the scan of a spelled text leaves no gap. *)
Lemma run_spelled voc adv symbols :
  prefix_free voc = true -> Forall (fun x => x ∈ voc) symbols ->
  gaps (run (compile voc) adv (spell symbols)) = [].
Proof.
  intros Hpf Hall.
  cut (forall s r, r = run (compile voc) adv s ->
         forall symbols, Forall (fun x => x ∈ voc) symbols ->
           s = spell symbols -> gaps r = []); [by eauto|].
  intros s r ->. clear symbols Hall.
  apply (run_ind (compile voc) (fun _ s r =>
    forall symbols, Forall (fun x => x ∈ voc) symbols -> s = spell symbols ->
      gaps r = [])); clear adv s.
  - done.
  - intros adv c s Hm _ symbols Hall Hs. exfalso.
    destruct (spell_cons _ symbols c s Hall (eq_sym Hs))
      as (lit & rest & Hlit & Hne & _ & Heq).
    assert (lit ∈ compile voc) as Hin.
    { destruct voc; [by apply elem_of_nil in Hlit | done]. }
    by destruct (match_at_None _ _ _ _ _ Hm Hin Heq).
  - intros adv s m rest Hm IH symbols Hall Hs.
    rewrite gaps_match, <- surjective_pairing. apply match_at_Some in Hm as (Hin & Hsm & _).
    destruct m as [|d m].
    + apply (IH symbols Hall). by rewrite <- Hs, Hsm.
    + assert (String d m ∈ voc) as Hin'.
      { destruct voc; [|done]. by apply list_elem_of_singleton in Hin. }
      rewrite Hsm in Hs. app_simpl.
      destruct (spell_cons _ symbols _ _ Hall (eq_sym Hs))
        as (lit & rest' & Hlit & Hne & Hrest & Heq).
      apply (IH rest' Hrest).
      assert (String d m = lit) as Hml.
      { change (String d (m +:+ rest)) with (String d m +:+ rest) in Heq.
        destruct (prefixes_comparable _ _ _ _ Heq) as [Hp|Hp].
        - by apply (prefix_free_eq voc).
        - symmetry. by apply (prefix_free_eq voc). }
      subst lit. change (String d (m +:+ rest)) with (String d m +:+ rest) in Heq.
      by apply (inj (String.app (String d m))) in Heq.
Qed.

End PrefixFree.

(** ** Round trip *)

Lemma log_not_found_characters_nil self : log_not_found_characters self [] = self.
Proof. unfold log_not_found_characters. simpl. apply set_not_found_characters_id. Qed.

(** What the gaps add to the length of the text. *)
Lemma reassemble_length r :
  String.length (Re.reassemble r)
  = String.length (spell (fst r).*2)
    + foldr (fun gm n => String.length (fst gm) + n) (String.length (snd r)) (fst r).
Proof.
  destruct r as [ms tl]. unfold Re.reassemble. simpl.
  induction ms as [|[gap m] ms IH]; simpl; [done|].
  change (list_fmap _ _ snd ms) with (ms.*2).
  rewrite !ReFacts.length_app, IH. lia.
Qed.

Lemma gaps_length r :
  Re.gaps r <> [] ->
  0 < foldr (fun gm n => String.length (fst gm) + n) (String.length (snd r)) (fst r).
Proof.
  destruct r as [ms tl]. unfold Re.gaps. simpl.
  induction ms as [|[gap m] ms IH]; simpl.
  - destruct tl; simpl; [by rewrite filter_cons_False by (by intros []) | lia].
  - destruct gap; simpl; [|lia].
    rewrite filter_cons_False by (by intros []). apply IH.
Qed.

(** With a gap the matches spell less than the text. *)
Lemma run_gaps p adv s :
  Re.gaps (Re.run p adv s) <> [] -> spell (fst (Re.run p adv s)).*2 <> s.
Proof.
  intros Hg Heq. apply gaps_length in Hg.
  pose proof (reassemble_length (Re.run p adv s)) as Hlen.
  rewrite ScanFacts.reassemble_run, Heq in Hlen. lia.
Qed.

(** C1, as amended.  [encode] of a string never fails and logs the segments
    the vocabulary pattern does not match; [ids_to_text] of the result gives
    the text back exactly when there is no such segment.  There is none, and
    the tokenizer is left as it was, for every text spelled with symbols of
    the vocabulary when no symbol of the vocabulary begins another one. *)
Theorem encode_ids_to_text_roundtrip (self : TTSTokenizer) :
  consistent self ->
  (forall text,
     let segments := RegexpTokenizer_tokenize (not_found_tokenizer self) text in
     exists ids decoded,
       encode self (Str text) = (Ok ids, log_not_found_characters self segments)
       /\ ids_to_text (log_not_found_characters self segments) ids = Ok decoded
       /\ (decoded = text <-> segments = []))
  /\ (prefix_free (vocab (characters self)) = true ->
      forall symbols,
        Forall (fun x => x ∈ vocab (characters self)) symbols ->
        exists ids,
          encode self (Str (spell symbols)) = (Ok ids, self)
          /\ ids_to_text self ids = Ok (spell symbols)).
Proof.
  intros Hc.
  assert (forall text, exists ids,
            encode self (Str text)
              = (Ok ids, log_not_found_characters self
                           (Re.gaps (Re.scan (vocab (characters self)) text)))
            /\ ids_to_text self ids
               = Ok (spell (fst (Re.scan (vocab (characters self)) text)).*2))
    as Henc.
  { intros text. rewrite encode_Str by done. unfold Re.scan.
    pose proof (ScanFacts.run_matches (vocab (characters self)) false text) as Hm.
    destruct (encode_decode_symbols _ _ EmptyString Hm) as (ids & Hids & Hdec).
    exists ids. split; [by rewrite Hids|].
    unfold ids_to_text, decode. by rewrite Hdec, ReFacts.app_nil_l. }
  assert (forall text,
            RegexpTokenizer_tokenize (not_found_tokenizer self) text
            = Re.gaps (Re.scan (vocab (characters self)) text)) as Hseg.
  { intros text. pose proof (consistent_compile self Hc) as Hv.
    destruct Hc as (_ & -> & _). unfold RegexpTokenizer_tokenize.
    simpl. by rewrite Hv. }
  split.
  - intros text segments. subst segments. rewrite Hseg.
    destruct (Henc text) as (ids & Hids & Hdec).
    exists ids, (spell (fst (Re.scan (vocab (characters self)) text)).*2).
    split; [done|]. split; [done|]. split.
    + intros Heq. destruct (Re.gaps _) eqn:Hg; [done|].
      destruct (run_gaps (vocab (characters self)) false text); [|done].
      unfold Re.scan in Hg. by rewrite Hg.
    + apply ScanFacts.run_no_gaps.
  - intros Hpf symbols Hall.
    pose proof (PrefixFree.run_spelled _ false symbols Hpf Hall) as Hg.
    rewrite (consistent_compile self Hc) in Hg.
    destruct (Henc (spell symbols)) as (ids & Hids & Hdec).
    exists ids. unfold Re.scan in *.
    rewrite Hg, log_not_found_characters_nil in Hids. split; [done|].
    by rewrite Hdec, (ScanFacts.run_no_gaps _ _ _ Hg).
Qed.

Lemma encode_ids_to_text_roundtrip_witness :
  exists ids,
    encode (sample_tokenizer abc_characters false false) (Str (spell ["c"; "a"; "b"]))
      = (Ok ids, sample_tokenizer abc_characters false false)
    /\ ids_to_text (sample_tokenizer abc_characters false false) ids
       = Ok (spell ["c"; "a"; "b"]).
Proof.
  apply (encode_ids_to_text_roundtrip (sample_tokenizer abc_characters false false)).
  - repeat split.
  - reflexivity.
  - repeat constructor.
Defined.

(** The round trip as the claim has it fails where one symbol begins another:
    "ab" is a symbol of the vocabulary, yet the pattern matches "a" first and
    "b" is left over. *)
Lemma encode_ids_to_text_roundtrip_counterexample :
  init false None ab_characters None false false
    = Ok (sample_tokenizer ab_characters false false)
  /\ "ab" ∈ vocab ab_characters
  /\ fst (encode (sample_tokenizer ab_characters false false) (Str "ab")) = Ok [4%Z]
  /\ ids_to_text (snd (encode (sample_tokenizer ab_characters false false) (Str "ab")))
       [4%Z] = Ok "a"
  /\ ~ (forall (self : TTSTokenizer) (symbols : list string),
          consistent self ->
          Forall (fun x => x ∈ vocab (characters self)) symbols ->
          exists ids self',
            encode self (Str (spell symbols)) = (Ok ids, self')
            /\ ids_to_text self' ids = Ok (spell symbols)).
Proof.
  split; [reflexivity|]. split; [by apply (bool_decide_unpack _)|].
  split; [reflexivity|].
  split; [reflexivity|].
  intros H.
  destruct (H (sample_tokenizer ab_characters false false) ["ab"])
    as (ids & self' & Henc & Hdec).
  - repeat split.
  - constructor; [by apply (bool_decide_unpack _) | constructor].
  - vm_compute in Henc. injection Henc as <- <-. vm_compute in Hdec. discriminate.
Qed.

(** ** The log of symbols that were not found *)

Lemma log_loop_app logged not_found :
  exists ext,
    log_loop logged not_found = logged ++ ext
    /\ NoDup ext
    /\ (forall x, x ∈ ext -> x ∉ logged)
    /\ (forall x, x ∈ ext -> x ∈ not_found)
    /\ (forall x, x ∈ not_found -> x ∈ logged \/ x ∈ ext).
Proof.
  revert logged; induction not_found as [|c l IH]; intros logged; simpl.
  - exists []. rewrite app_nil_r. split_and!; [done | constructor | | |].
    + intros x Hx. by apply elem_of_nil in Hx.
    + intros x Hx. by apply elem_of_nil in Hx.
    + intros x Hx. by apply elem_of_nil in Hx.
  - case_bool_decide as Hc.
    + destruct (IH logged) as (ext & -> & Hnd & Hnew & Hsub & Hcov).
      exists ext. split_and!; [done | done | done | |].
      * intros x Hx. right. by apply Hsub.
      * intros x [->|Hx]%elem_of_cons; [by left | by apply Hcov].
    + destruct (IH (logged ++ [c])) as (ext & -> & Hnd & Hnew & Hsub & Hcov).
      exists (c :: ext). rewrite <- app_assoc. split_and!; [done | | | |].
      * constructor; [|done]. intros Hin. apply (Hnew c Hin).
        apply elem_of_app. right. by left.
      * intros x [->|Hx]%elem_of_cons; [done|].
        intros Hin. apply (Hnew x Hx), elem_of_app. by left.
      * intros x [->|Hx]%elem_of_cons; [by left | right; by apply Hsub].
      * intros x [->|Hx]%elem_of_cons; [right; by left|].
        destruct (Hcov x Hx) as [[?|Hxc]%elem_of_app|?];
          [by left | right | right; by right].
        apply list_elem_of_singleton in Hxc as ->. by left.
Qed.

Lemma log_not_found_characters_grows self not_found :
  grows self (log_not_found_characters self not_found).
Proof.
  destruct (log_loop_app (not_found_characters self) not_found)
    as (ext & Heq & Hnd & Hnew & _).
  exists ext. unfold log_not_found_characters. by rewrite Heq.
Qed.

Lemma log_loop_NoDup logged not_found :
  NoDup logged -> NoDup (log_loop logged not_found).
Proof.
  intros Hl. destruct (log_loop_app logged not_found) as (ext & -> & Hnd & Hnew & _).
  apply NoDup_app. repeat split; [done | | done].
  intros x Hx Hx'. by apply (Hnew x).
Qed.

Lemma log_loop_elem logged not_found x :
  x ∈ log_loop logged not_found <-> x ∈ logged \/ x ∈ not_found.
Proof.
  destruct (log_loop_app logged not_found) as (ext & -> & _ & _ & Hsub & Hcov).
  rewrite elem_of_app. split.
  - intros [?|?]; [by left | right; by apply Hsub].
  - intros [?|?]; [by left | by apply Hcov].
Qed.

(** ** Encoding a string *)

Lemma comprehension_Forall2 cs symbols :
  Forall (fun x => x ∈ vocab cs) symbols ->
  exists ids, comprehension (char_to_id cs) symbols = Ok ids
    /\ Forall2 (fun x id => char_to_id cs x = Ok id /\ id_to_char cs id = Ok x)
         symbols ids.
Proof.
  induction 1 as [|x l Hx _ (ids & Hids & IH)].
  - exists []. split; [done | constructor].
  - destruct (char_to_id_elem cs x Hx) as (id & Hid & Hback).
    exists (id :: ids). simpl. rewrite Hid; simpl. rewrite Hids; simpl.
    split; [done|]. by constructor.
Qed.

(** What [encode] of a string does: it keeps, in order, the IDs of the
    vocabulary symbols the pattern matches and drops the pieces between the
    matches; the text is these pieces and matches in turn.  The non-empty
    pieces are what is logged: afterwards [not_found_characters] holds them
    and what it held before, and it stays free of duplicates. *)
Lemma encode_drops_and_logs_segments (self : TTSTokenizer) (text : string) :
  consistent self ->
  NoDup (not_found_characters self) ->
  let r := Re.scan (vocab (characters self)) text in
  let self' := snd (encode self (Str text)) in
  exists ids,
    fst (encode self (Str text)) = Ok ids
    /\ Forall2 (fun m id => m ∈ vocab (characters self)
                  /\ id_to_char (characters self) id = Ok m) (fst r).*2 ids
    /\ Re.reassemble r = text
    /\ grows self self'
    /\ NoDup (not_found_characters self')
    /\ forall seg, seg ∈ not_found_characters self'
         <-> seg ∈ not_found_characters self \/ seg ∈ Re.gaps r.
Proof.
  intros Hc Hnd r self'. subst self'. rewrite encode_Str by done. simpl.
  pose proof (ScanFacts.run_matches (vocab (characters self)) false text) as Hm.
  destruct (comprehension_Forall2 _ _ Hm) as (ids & Hids & Hall).
  exists ids. split; [done|]. split.
  { eapply Forall2_impl; [exact Hall|]. intros m id [Hid Hback].
    split; [by eapply char_to_id_Ok | done]. }
  split; [apply ScanFacts.reassemble_run|].
  split; [apply log_not_found_characters_grows|].
  split; [by apply log_loop_NoDup | apply log_loop_elem].
Qed.

Lemma encode_drops_and_logs_segments_witness :
  let self := sample_tokenizer abc_characters false false in
  let r := Re.scan (vocab (characters self)) "zazb" in
  let self' := snd (encode self (Str "zazb")) in
  not_found_characters self' = ["z"]
  /\ exists ids,
    fst (encode self (Str "zazb")) = Ok ids
    /\ Forall2 (fun m id => m ∈ vocab (characters self)
                  /\ id_to_char (characters self) id = Ok m) (fst r).*2 ids
    /\ Re.reassemble r = "zazb"
    /\ grows self self'
    /\ NoDup (not_found_characters self')
    /\ forall seg, seg ∈ not_found_characters self'
         <-> seg ∈ not_found_characters self \/ seg ∈ Re.gaps r.
Proof.
  split; [reflexivity|].
  apply (encode_drops_and_logs_segments (sample_tokenizer abc_characters false false)).
  - repeat split.
  - constructor.
Defined.

(** C3 does not hold of the code.  What is logged is what the pattern leaves
    between two matches, as one string: of the adjacent characters "z", "z"
    in "azzb", neither in the vocabulary, the log gets the entry "zz", and "z"
    is not recorded.  Apart in "zazb", the same character is logged, once. *)
Theorem encode_logs_run_not_character :
  init false None abc_characters None false false
    = Ok (sample_tokenizer abc_characters false false)
  /\ ("z" ∉ vocab abc_characters)
  /\ chars "azzb" = ["a"; "z"; "z"; "b"]
  /\ fst (encode (sample_tokenizer abc_characters false false) (Str "azzb"))
     = Ok [4%Z; 5%Z]
  /\ not_found_characters
       (snd (encode (sample_tokenizer abc_characters false false) (Str "azzb")))
     = ["zz"]
  /\ ("z" ∉ not_found_characters
              (snd (encode (sample_tokenizer abc_characters false false)
                      (Str "azzb"))))
  /\ not_found_characters
       (snd (encode (sample_tokenizer abc_characters false false) (Str "zazb")))
     = ["z"]
  /\ ~ (forall (self : TTSTokenizer) (text c : string),
          consistent self -> c ∈ chars text -> c ∉ vocab (characters self) ->
          c ∈ not_found_characters (snd (encode self (Str text)))).
Proof.
  assert ("z" ∉ ["zz"]) as Hz by (by apply (bool_decide_unpack _)).
  split_and!; try reflexivity.
  - by apply (bool_decide_unpack _).
  - exact Hz.
  - intros H. apply Hz.
    apply (H (sample_tokenizer abc_characters false false) "azzb" "z").
    + by split_and!.
    + by apply (bool_decide_unpack _).
    + by apply (bool_decide_unpack _).
Qed.

(** ** Blank interspersion *)

(** The blank, then each symbol followed by a blank. *)
Lemma assign_each_odd {A} (b : A) (values pre : list A) :
  assign_each ((fun k => length pre + 1 + k * 2) <$> seq 0 (length values)) values
    (pre ++ replicate (length values * 2 + 1) b)
  = pre ++ b :: flat_map (fun c => [c; b]) values.
Proof.
  revert pre; induction values as [|v values IH]; intros pre; [done|].
  cbn [length seq fmap list_fmap assign_each flat_map].
  replace (S (length values) * 2 + 1) with (S (S (length values * 2 + 1))) by lia.
  cbn [replicate].
  rewrite insert_app_r_alt by lia.
  replace (length pre + 1 + 0 * 2 - length pre) with 1 by lia. cbn [insert list_insert].
  specialize (IH (pre ++ [b; v])).
  rewrite <- !app_assoc in IH. cbn [app] in *. rewrite <- IH. f_equal.
  rewrite <- fmap_S_seq, <- list_fmap_compose.
  apply list_fmap_ext. intros _ k _. rewrite length_app. simpl. lia.
Qed.

Lemma slice_indices_odd n :
  slice_indices 1 2 (n * 2 + 1) = (fun k => 1 + k * 2) <$> seq 0 n.
Proof.
  unfold slice_indices. do 2 f_equal.
  replace (n * 2 + 1 - 1 + (2 - 1)) with (1 + n * 2) by lia.
  rewrite Nat.div_add by lia. done.
Qed.

Lemma intersperse_blank_char_Ok self char_sequence use_blank_char :
  intersperse_blank_char self char_sequence use_blank_char =
    Ok (let c := if use_blank_char then blank (characters self)
                 else pad (characters self) in
        c :: flat_map (fun x => [x; c]) (py_list char_sequence)).
Proof.
  unfold intersperse_blank_char, assign_slice.
  rewrite length_replicate, slice_indices_odd, length_fmap, length_seq, py_len_list.
  rewrite bool_decide_eq_true_2 by done. f_equal.
  apply (assign_each_odd _ (py_list char_sequence) []).
Qed.

Lemma interspersed_length {A} (b : A) l :
  length (b :: flat_map (fun x => [x; b]) l) = 2 * length l + 1.
Proof. induction l; simpl in *; lia. Qed.

Lemma interspersed_even {A} (b : A) l i :
  i <= length l -> (b :: flat_map (fun x => [x; b]) l) !! (2 * i) = Some b.
Proof.
  revert i; induction l as [|x l IH]; intros [|i] Hi; simpl in *; try done; try lia.
  replace (i + S (i + 0)) with (S (2 * i)) by lia. simpl. apply IH. lia.
Qed.

Lemma interspersed_odd {A} (b : A) l i :
  (b :: flat_map (fun x => [x; b]) l) !! (2 * i + 1) = l !! i.
Proof.
  revert i; induction l as [|x l IH]; intros [|i]; simpl in *; try done.
  replace (i + S (i + 0) + 1) with (S (S (2 * i))) by lia.
  replace (S (2 * i)) with (2 * i + 1) by lia. apply IH.
Qed.

(** C4.  [intersperse_blank_char(seq, True)] returns [2 * len(seq) + 1]
    symbols, the blank at every even index and the symbols of [seq], in
    order, at the odd indices; with [add_blank] the text "abc" becomes the IDs
    of blank, a, blank, b, blank, c, blank. *)
Theorem intersperse_blank_char_layout (self : TTSTokenizer)
    (char_sequence : str_or_list) :
  (exists out,
     intersperse_blank_char self char_sequence true = Ok out
     /\ length out = 2 * py_len char_sequence + 1
     /\ (forall i, i <= py_len char_sequence ->
           out !! (2 * i) = Some (blank (characters self)))
     /\ (forall i, out !! (2 * i + 1) = py_list char_sequence !! i))
  /\ (let tok := sample_tokenizer abc_characters true false in
      fst (text_to_ids tok "abc" None)
        = comprehension (char_to_id (characters tok))
            [blank (characters tok); "a"; blank (characters tok); "b";
             blank (characters tok); "c"; blank (characters tok)]
      /\ fst (text_to_ids tok "abc" None) = Ok [1; 4; 1; 5; 1; 6; 1]%Z).
Proof.
  split; [|by split].
  eexists. split; [apply intersperse_blank_char_Ok|]. simpl.
  rewrite py_len_list. split; [apply interspersed_length|].
  split; [apply interspersed_even | apply interspersed_odd].
Qed.

Lemma intersperse_blank_char_layout_witness :
  exists out,
    intersperse_blank_char (sample_tokenizer abc_characters true false)
      (Str "abc") true = Ok out
    /\ length out = 7
    /\ out !! (2 * 3) = Some "<BLNK>"
    /\ out !! (2 * 1 + 1) = Some "b".
Proof.
  destruct (intersperse_blank_char_layout
              (sample_tokenizer abc_characters true false) (Str "abc"))
    as [(out & Hout & Hlen & Heven & Hodd) _].
  exists out. split; [exact Hout|]. split; [exact Hlen|].
  split; [apply Heven; simpl; lia | apply Hodd].
Defined.

(** ** BOS and EOS *)

(** C5.  [pad_with_bos_eos(seq)] has [len(seq) + 2] symbols: [bos] first,
    [eos] last, and between them [seq] unchanged. *)
Theorem pad_with_bos_eos_layout (self : TTSTokenizer) (char_sequence : str_or_list) :
  let out := pad_with_bos_eos self char_sequence in
  length out = py_len char_sequence + 2
  /\ out !! 0 = Some (bos (characters self))
  /\ last out = Some (eos (characters self))
  /\ out !! (py_len char_sequence + 1) = Some (eos (characters self))
  /\ take (py_len char_sequence) (drop 1 out) = py_list char_sequence.
Proof.
  unfold pad_with_bos_eos. rewrite py_len_list. cbn [app].
  split; [simpl; rewrite length_app; simpl; lia|].
  split; [done|].
  split; [by rewrite last_cons, last_snoc|].
  split.
  - replace (length (py_list char_sequence) + 1)
      with (S (length (py_list char_sequence) + 0)) by lia.
    simpl. by rewrite lookup_app_r, Nat.add_0_r, Nat.sub_diag by lia.
  - cbn [drop]. by rewrite drop_0, take_app_length.
Qed.

(** ** The pipeline *)

(** C6.  [text_to_ids] is the staged pipeline: the enabled stages among
    clean, phonemize, blank interspersion and BOS/EOS padding, each once and
    in this order, and then the encoding. *)
Theorem text_to_ids_stage_order (self : TTSTokenizer) (text : string)
    (language : option string) :
  text_to_ids self text language = staged_text_to_ids self text
  /\ text_stages = [Clean; Phonemize]
  /\ symbol_stages = [IntersperseBlank; PadBosEos]
  /\ NoDup (filter (fun st => text_stage_enabled self st = true) text_stages)
  /\ NoDup (filter (fun st => symbol_stage_enabled self st = true) symbol_stages).
Proof.
  split_and!; [|done|done| |].
  - unfold text_to_ids, staged_text_to_ids, text_stages, symbol_stages.
    rewrite !filter_cons, !filter_nil.
    destruct self as [tc ph ab eb cs pid bid nf pz tk nftk]; simpl.
    destruct tc as [clean|], ph, pz as [p|], ab, eb; simpl; try done.
    all: by destruct (intersperse_blank_char _ _ _).
  - apply NoDup_filter, NoDup_cons.
    split; [by intros [=]%list_elem_of_singleton | apply NoDup_singleton].
  - apply NoDup_filter, NoDup_cons.
    split; [by intros [=]%list_elem_of_singleton | apply NoDup_singleton].
Qed.

(** ** State *)

Lemma grows_refl self : grows self self.
Proof.
  exists []. rewrite app_nil_r, set_not_found_characters_id.
  split_and!; [done | constructor | by intros x ?%elem_of_nil].
Qed.

Lemma encode_grows self text : grows self (snd (encode self text)).
Proof.
  destruct text as [s|l]; simpl.
  - apply log_not_found_characters_grows.
  - apply grows_refl.
Qed.

Lemma text_to_ids_grows self text language :
  grows self (snd (text_to_ids self text language)).
Proof.
  unfold text_to_ids. destruct (rbind _ _) as [x|e].
  - apply encode_grows.
  - apply grows_refl.
Qed.

Lemma set_characters_not_found self cs self' :
  set_characters self cs = Ok self' ->
  not_found_characters self' = not_found_characters self.
Proof.
  unfold set_characters. destruct (char_to_id cs (pad cs)); [|done].
  destruct (char_to_id cs (blank cs)); [|done]. simpl. by intros [= <-].
Qed.

(** C8.  Every operation that can touch the tokenizer leaves it as it was
    but for symbols appended to [not_found_characters]: what was logged stays
    where it is, what is appended was absent.  This holds for
    [log_not_found_characters], [encode] and [text_to_ids], which change
    nothing else, and the [characters] setter leaves the log alone; the other
    methods return a value and have no tokenizer to return. *)
Theorem not_found_characters_only_grows (self : TTSTokenizer) :
  (forall not_found, grows self (log_not_found_characters self not_found))
  /\ (forall text, grows self (snd (encode self text)))
  /\ (forall text language, grows self (snd (text_to_ids self text language)))
  /\ (forall new_characters self',
        set_characters self new_characters = Ok self' ->
        not_found_characters self' = not_found_characters self).
Proof.
  split_and!.
  - apply log_not_found_characters_grows.
  - apply encode_grows.
  - apply text_to_ids_grows.
  - apply set_characters_not_found.
Qed.

Lemma not_found_characters_only_grows_witness :
  not_found_characters (snd (text_to_ids (sample_tokenizer abc_characters false false) "xay" None))
    = ["x"; "y"]
  /\ grows (snd (text_to_ids (sample_tokenizer abc_characters false false) "xay" None))
       (snd (text_to_ids
               (snd (text_to_ids (sample_tokenizer abc_characters false false) "xay" None))
               "yzx" None))
  /\ not_found_characters (sample_tokenizer ab_characters false false)
     = not_found_characters (sample_tokenizer abc_characters false false).
Proof.
  split; [reflexivity|]. split.
  - apply (not_found_characters_only_grows
             (snd (text_to_ids (sample_tokenizer abc_characters false false) "xay" None))).
  - apply (proj2 (proj2 (proj2 (not_found_characters_only_grows
                                  (sample_tokenizer abc_characters false false))))
             ab_characters).
    reflexivity.
Defined.

(** ** Determinism *)

Lemma text_to_ids_ignores_log self text language nf :
  fst (text_to_ids (set_not_found_characters self nf) text language)
  = fst (text_to_ids self text language).
Proof.
  unfold text_to_ids. cbn [text_cleaner use_phonemes phonemizer add_blank
    use_eos_bos set_not_found_characters].
  replace (intersperse_blank_char (set_not_found_characters self nf))
    with (intersperse_blank_char self) by done.
  replace (pad_with_bos_eos (set_not_found_characters self nf))
    with (pad_with_bos_eos self) by done.
  destruct (rbind _ _) as [[s|l]|e]; done.
Qed.

(** C7.  The IDs [text_to_ids] returns do not depend on what is logged in
    [not_found_characters]; so a second call with the same input, on the
    tokenizer as the first call left it, returns the same IDs. *)
Theorem text_to_ids_deterministic (self : TTSTokenizer) (text : string)
    (language : option string) :
  (forall logged,
     fst (text_to_ids (set_not_found_characters self logged) text language)
     = fst (text_to_ids self text language))
  /\ fst (text_to_ids (snd (text_to_ids self text language)) text language)
     = fst (text_to_ids self text language).
Proof.
  split; [intros; apply text_to_ids_ignores_log|].
  destruct (text_to_ids_grows self text language) as (ext & -> & _).
  apply text_to_ids_ignores_log.
Qed.

(** ** Encoding a list *)






(** ** Symbols outside the vocabulary in [text_to_ids] *)

(** C2 does not hold of the code.  With [add_blank] (or [use_eos_bos]) the
    text reaches [encode] as a list of its characters, which [encode] does
    not filter: a character outside the vocabulary raises in [char_to_id].
    Without the two flags the same text is encoded, the character dropped and
    logged. *)
Theorem text_to_ids_unknown_symbol_raises :
  init false None abc_characters None true false
    = Ok (sample_tokenizer abc_characters true false)
  /\ text_to_ids (sample_tokenizer abc_characters true false) "z" None
     = (Raise (UnknownSymbolError "z"), sample_tokenizer abc_characters true false)
  /\ text_to_ids (sample_tokenizer abc_characters false true) "z" None
     = (Raise (UnknownSymbolError "z"), sample_tokenizer abc_characters false true)
  /\ fst (text_to_ids (sample_tokenizer abc_characters false false) "z" None) = Ok []
  /\ not_found_characters
       (snd (text_to_ids (sample_tokenizer abc_characters false false) "z" None))
     = ["z"].
Proof. by split_and!. Qed.

(** The same for every tokenizer and every text: with one of the two flags, a
    character outside the vocabulary makes [text_to_ids] raise. *)
Lemma comprehension_unknown cs l c :
  c ∈ l -> c ∉ vocab cs ->
  exists x, (x ∉ vocab cs)
    /\ comprehension (char_to_id cs) l = Raise (UnknownSymbolError x).
Proof.
  intros Hin Hc. induction l as [|a l IH]; [by apply elem_of_nil in Hin|].
  destruct (decide (a ∈ vocab cs)) as [Ha|Ha].
  - apply elem_of_cons in Hin as [->|Hin]; [done|].
    destruct (IH Hin) as (x & Hx & Hraise). exists x. split; [done|].
    destruct (char_to_id_elem cs a Ha) as (id & Hid & _).
    simpl. rewrite Hid. simpl. by rewrite Hraise.
  - exists a. split; [done|]. simpl. by rewrite char_to_id_not_elem.
Qed.

Lemma elem_of_interspersed {A} (b x : A) l :
  x ∈ l -> x ∈ b :: flat_map (fun y => [y; b]) l.
Proof.
  intros Hin. right. induction l as [|a l IH]; [by apply elem_of_nil in Hin|].
  simpl. apply elem_of_cons in Hin as [->|Hin]; [by left|].
  right. right. by apply IH.
Qed.

(** X20.  With [add_blank] or [use_eos_bos], no cleaner and no phonemes, a
    text with a character outside the vocabulary makes [text_to_ids] raise
    the lookup error of a symbol outside the vocabulary, and nothing is
    logged. *)
Lemma text_to_ids_list_path_raises self text language c :
  text_cleaner self = None -> use_phonemes self = false ->
  add_blank self || use_eos_bos self = true ->
  c ∈ chars text -> c ∉ vocab (characters self) ->
  exists x, (x ∉ vocab (characters self))
    /\ text_to_ids self text language = (Raise (UnknownSymbolError x), self).
Proof.
  intros Htc Hph Hflags Hin Hc. unfold text_to_ids. rewrite Htc, Hph. cbn [rbind].
  assert (forall l, c ∈ l -> exists x, (x ∉ vocab (characters self))
            /\ encode self (Lst l) = (Raise (UnknownSymbolError x), self)) as Hl.
  { intros l Hl. destruct (comprehension_unknown _ l c Hl Hc) as (x & Hx & Hraise).
    exists x. split; [done|]. simpl. by rewrite Hraise. }
  destruct (add_blank self).
  - rewrite intersperse_blank_char_Ok. cbn [rbind py_list].
    destruct (use_eos_bos self); apply Hl.
    + unfold pad_with_bos_eos. cbn [py_list].
      apply elem_of_app. right. apply elem_of_app. left.
      by apply elem_of_interspersed.
    + by apply elem_of_interspersed.
  - simpl in Hflags. rewrite Hflags. cbn [rbind]. apply Hl.
    unfold pad_with_bos_eos. cbn [py_list].
    apply elem_of_app. right. apply elem_of_app. by left.
Qed.

(** X21.  With no cleaner, no phonemes and neither flag, [text_to_ids] of a
    consistent tokenizer is [encode] of the text as a string, and it returns
    IDs for every text. *)
Lemma text_to_ids_string_path_Ok self text language :
  consistent self ->
  text_cleaner self = None -> use_phonemes self = false ->
  add_blank self = false -> use_eos_bos self = false ->
  text_to_ids self text language = encode self (Str text)
  /\ exists ids, fst (text_to_ids self text language) = Ok ids.
Proof.
  intros Hc Htc Hph Hab Heb.
  assert (text_to_ids self text language = encode self (Str text)) as ->.
  { unfold text_to_ids. by rewrite Htc, Hph, Hab, Heb. }
  split; [done|]. rewrite encode_Str by done. simpl.
  pose proof (ScanFacts.run_matches (vocab (characters self)) false text) as Hm.
  destruct (comprehension_Forall2 _ _ Hm) as (ids & Hids & _). by exists ids.
Qed.

(** ** Availability of the Korean backend *)

(** C9, as amended.  [KO_KR_Phonemizer.is_available()] returns [True] and
    does not raise, whatever the state of the resources it depends on; it
    looks at none of them. *)
Theorem ko_kr_is_available_true (env : Resources) :
  KO_KR_Phonemizer.is_available env = Ok true
  /\ forall korean_text_to_phonemes punctuations keep_puncs,
       is_available
         (KO_KR_Phonemizer.new korean_text_to_phonemes punctuations keep_puncs) env
       = Ok true.
Proof. by split. Qed.

(** With the dependency missing the answer is still [True], not [False]. *)
Lemma ko_kr_is_available_counterexample :
  KO_KR_Phonemizer.is_available {| runtime_dependency_present := false |} = Ok true
  /\ ~ (forall env, exists b,
          KO_KR_Phonemizer.is_available env = Ok b
          /\ (runtime_dependency_present env = false -> b = false)).
Proof.
  split; [done|]. intros H.
  destruct (H {| runtime_dependency_present := false |}) as (b & Hb & Hfalse).
  injection Hb as <-. by specialize (Hfalse eq_refl).
Qed.

(** * Further properties of the tokenizer *)

(** ** Construction *)

(** X1.  [TTSTokenizer(...)] succeeds exactly when [pad] and [blank] are in
    the vocabulary; the tokenizer then has the configuration it was given, an
    empty [not_found_characters], tokenizers built from the vocabulary, and
    [pad_id], [blank_id] that map back to [pad] and [blank].  Otherwise it
    raises the lookup error of [pad], or of [blank] when [pad] is present. *)
Theorem init_outcome ph tc (cs : Characters) pz ab eb :
  (pad cs ∈ vocab cs -> blank cs ∈ vocab cs ->
   exists self,
     init ph tc cs pz ab eb = Ok self
     /\ consistent self
     /\ not_found_characters self = []
     /\ characters self = cs /\ text_cleaner self = tc /\ phonemizer self = pz
     /\ use_phonemes self = ph /\ add_blank self = ab /\ use_eos_bos self = eb
     /\ id_to_char cs (pad_id self) = Ok (pad cs)
     /\ id_to_char cs (blank_id self) = Ok (blank cs))
  /\ ((pad cs ∉ vocab cs) ->
      init ph tc cs pz ab eb = Raise (UnknownSymbolError (pad cs)))
  /\ (pad cs ∈ vocab cs -> (blank cs ∉ vocab cs) ->
      init ph tc cs pz ab eb = Raise (UnknownSymbolError (blank cs))).
Proof.
  unfold init. split_and!.
  - intros Hp Hb.
    destruct (char_to_id_elem cs _ Hp) as (pid & Hpid & Hpback).
    destruct (char_to_id_elem cs _ Hb) as (bid & Hbid & Hbback).
    rewrite Hpid, Hbid. simpl. eexists. split; [done|]. by split_and!.
  - intros Hp. by rewrite char_to_id_not_elem.
  - intros Hp Hb. destruct (char_to_id_elem cs _ Hp) as (pid & -> & _).
    simpl. by rewrite char_to_id_not_elem.
Qed.

Lemma init_outcome_witness :
  (exists self,
     init false None abc_characters None true false = Ok self
     /\ consistent self
     /\ not_found_characters self = []
     /\ characters self = abc_characters /\ text_cleaner self = None
     /\ phonemizer self = None
     /\ use_phonemes self = false /\ add_blank self = true
     /\ use_eos_bos self = false
     /\ id_to_char abc_characters (pad_id self) = Ok (pad abc_characters)
     /\ id_to_char abc_characters (blank_id self) = Ok (blank abc_characters))
  /\ init false None
       {| vocab := ["a"]; pad := "<PAD>"; blank := "a"; bos := "a"; eos := "a" |}
       None false false = Raise (UnknownSymbolError "<PAD>")
  /\ init false None
       {| vocab := ["a"]; pad := "a"; blank := "_"; bos := "a"; eos := "a" |}
       None false false = Raise (UnknownSymbolError "_").
Proof.
  split_and!.
  - apply (init_outcome false None abc_characters None true false);
      by apply (bool_decide_unpack _).
  - apply (init_outcome false None
             {| vocab := ["a"]; pad := "<PAD>"; blank := "a"; bos := "a"; eos := "a" |}).
    by apply (bool_decide_unpack _).
  - apply (init_outcome false None
             {| vocab := ["a"]; pad := "a"; blank := "_"; bos := "a"; eos := "a" |});
      by apply (bool_decide_unpack _).
Defined.

(** ** Assigning a new character set *)

(** X2.  An assignment to [characters] succeeds exactly when [pad] and
    [blank] of the new set are in its vocabulary, and then leaves a
    consistent tokenizer with the same configuration and the same log.  When
    it raises, the tokenizer keeps the new character set together with both
    tokenizers of the old one, the old [blank_id], and the log. *)
Theorem assign_characters_outcome (self : TTSTokenizer) (cs : Characters) :
  let self' := snd (assign_characters self cs) in
  characters self' = cs
  /\ not_found_characters self' = not_found_characters self
  /\ text_cleaner self' = text_cleaner self /\ phonemizer self' = phonemizer self
  /\ use_phonemes self' = use_phonemes self /\ add_blank self' = add_blank self
  /\ use_eos_bos self' = use_eos_bos self
  /\ (pad cs ∈ vocab cs -> blank cs ∈ vocab cs ->
      fst (assign_characters self cs) = Ok tt
      /\ consistent self'
      /\ set_characters self cs = Ok self')
  /\ (forall e, fst (assign_characters self cs) = Raise e ->
      (e = UnknownSymbolError (pad cs) /\ (pad cs ∉ vocab cs)
       \/ e = UnknownSymbolError (blank cs) /\ (blank cs ∉ vocab cs))
      /\ tokenizer self' = tokenizer self
      /\ not_found_tokenizer self' = not_found_tokenizer self
      /\ blank_id self' = blank_id self).
Proof.
  unfold assign_characters, set_characters.
  destruct (char_to_id cs (pad cs)) as [pid|e1] eqn:Hp;
    [destruct (char_to_id cs (blank cs)) as [bid|e2] eqn:Hb|]; simpl.
  - by split_and!.
  - split_and!; try done.
    + intros _ Hin. destruct (char_to_id_elem cs _ Hin) as (? & ? & _). congruence.
    + intros e [= <-].
      assert (blank cs ∉ vocab cs) as Hnot.
      { intros Hin. destruct (char_to_id_elem cs _ Hin) as (? & ? & _). congruence. }
      split_and!; try done. right. split; [|done].
      rewrite char_to_id_not_elem in Hb by done. congruence.
  - split_and!; try done.
    + intros Hin. destruct (char_to_id_elem cs _ Hin) as (? & ? & _). congruence.
    + intros e [= <-].
      assert (pad cs ∉ vocab cs) as Hnot.
      { intros Hin. destruct (char_to_id_elem cs _ Hin) as (? & ? & _). congruence. }
      split_and!; try done. left. split; [|done].
      rewrite char_to_id_not_elem in Hp by done. congruence.
Qed.

Lemma assign_characters_outcome_witness :
  let self := sample_tokenizer abc_characters false false in
  (fst (assign_characters self ab_characters) = Ok tt
   /\ consistent (snd (assign_characters self ab_characters)))
  /\ (let bad := {| vocab := ["x"]; pad := "x"; blank := "_"; bos := "x"; eos := "x" |} in
      tokenizer (snd (assign_characters self bad)) = tokenizer self
      /\ characters (snd (assign_characters self bad)) = bad
      /\ fst (encode (snd (assign_characters self bad)) (Str "a"))
         = Raise (UnknownSymbolError "a")).
Proof.
  split.
  - destruct (assign_characters_outcome
                (sample_tokenizer abc_characters false false) ab_characters)
      as (_ & _ & _ & _ & _ & _ & _ & Hok & _).
    destruct Hok as (H1 & H2 & _); [by apply (bool_decide_unpack _)..|].
    by split.
  - destruct (assign_characters_outcome
                (sample_tokenizer abc_characters false false)
                {| vocab := ["x"]; pad := "x"; blank := "_"; bos := "x"; eos := "x" |})
      as (Hcs & _ & _ & _ & _ & _ & _ & _ & Hraise).
    destruct (Hraise (UnknownSymbolError "_") eq_refl) as (_ & Htok & _).
    split; [exact Htok|]. split; [exact Hcs | reflexivity].
Defined.

(** ** IDs *)

Lemma comprehension_length {A B} (f : A -> result B) l out :
  comprehension f l = Ok out -> length out = length l.
Proof.
  revert out; induction l as [|x l IH]; intros out; simpl; [by intros [= <-]|].
  destruct (f x); [|done]. simpl.
  destruct (comprehension f l) as [ys|]; [|done]. simpl.
  intros [= <-]. simpl. by rewrite (IH ys).
Qed.







(** ** Decoding *)

Lemma decode_loop_acc cs acc ids :
  decode_loop cs acc ids
  = (s <-! decode_loop cs EmptyString ids; Ok (acc +:+ s)).
Proof.
  revert acc; induction ids as [|id ids IH]; intros acc; simpl.
  - by rewrite ReFacts.app_empty_r.
  - destruct (id_to_char cs id) as [c|e]; simpl; [|done].
    rewrite (IH (acc +:+ c)), (IH (EmptyString +:+ c)).
    destruct (decode_loop cs EmptyString ids); simpl; [|done].
    by rewrite ReFacts.app_nil_l, ReFacts.app_assoc.
Qed.

Lemma id_to_char_valid cs id :
  valid_id cs id -> exists s, vocab cs !! Z.to_nat id = Some s /\ id_to_char cs id = Ok s.
Proof.
  intros [H0 Hlt]. unfold id_to_char.
  destruct (Z.ltb_spec id 0) as [?|_]; [lia|].
  destruct (lookup_lt_is_Some_2 (vocab cs) (Z.to_nat id)) as [s Hs]; [lia|].
  exists s. by rewrite Hs.
Qed.

Lemma id_to_char_invalid cs id :
  ~ valid_id cs id -> id_to_char cs id = Raise (OutOfRangeError id).
Proof.
  intros Hnot. unfold id_to_char.
  destruct (Z.ltb_spec id 0) as [?|Hge]; [done|].
  destruct (vocab cs !! Z.to_nat id) as [s|] eqn:Hs; [|done].
  apply lookup_lt_Some in Hs. destruct Hnot. unfold valid_id. lia.
Qed.

(** X4.  [decode] succeeds exactly on IDs that are positions in the
    vocabulary and then spells the symbols at these positions; the first ID
    that is negative or not below the size of the vocabulary raises, and is
    the one reported. *)
Theorem decode_outcome (self : TTSTokenizer) (token_ids : list Z) :
  (Forall (valid_id (characters self)) token_ids ->
   exists symbols,
     Forall2 (fun id s => vocab (characters self) !! Z.to_nat id = Some s)
       token_ids symbols
     /\ decode self token_ids = Ok (spell symbols))
  /\ (forall ids1 id ids2,
        token_ids = ids1 ++ id :: ids2 ->
        Forall (valid_id (characters self)) ids1 ->
        ~ valid_id (characters self) id ->
        decode self token_ids = Raise (OutOfRangeError id)).
Proof.
  unfold decode. split.
  - induction 1 as [|id ids Hid _ (symbols & Hall & IH)].
    + exists []. split; [constructor | done].
    + destruct (id_to_char_valid _ _ Hid) as (s & Hs & Hc).
      exists (s :: symbols). split; [by constructor|].
      simpl. rewrite Hc. simpl. rewrite decode_loop_acc, IH. simpl.
      by rewrite ReFacts.app_nil_l.
  - intros ids1 id ids2 -> Hall Hbad.
    induction Hall as [|i ids Hi _ IH]; simpl.
    + by rewrite id_to_char_invalid.
    + destruct (id_to_char_valid _ _ Hi) as (s & _ & ->). simpl.
      rewrite decode_loop_acc, IH. done.
Qed.

Lemma decode_outcome_witness :
  (exists symbols,
     Forall2 (fun id s => vocab abc_characters !! Z.to_nat id = Some s)
       [6; 4; 5]%Z symbols
     /\ decode (sample_tokenizer abc_characters false false) [6; 4; 5]%Z
        = Ok (spell symbols))
  /\ decode (sample_tokenizer abc_characters false false) ([4] ++ 7 :: [(-1)])%Z
     = Raise (OutOfRangeError 7)
  /\ decode (sample_tokenizer abc_characters false false) ([] ++ (-1) :: [4])%Z
     = Raise (OutOfRangeError (-1)).
Proof.
  split_and!.
  - apply (decode_outcome (sample_tokenizer abc_characters false false)).
    repeat constructor; unfold valid_id; simpl; lia.
  - apply (proj2 (decode_outcome (sample_tokenizer abc_characters false false) _)
             [4%Z] 7%Z [(-1)%Z] eq_refl).
    + repeat constructor; unfold valid_id; simpl; lia.
    + unfold valid_id; simpl; lia.
  - apply (proj2 (decode_outcome (sample_tokenizer abc_characters false false) _)
             [] (-1)%Z [4%Z] eq_refl).
    + constructor.
    + unfold valid_id; simpl; lia.
Defined.

Lemma decode_loop_app cs acc ids1 ids2 :
  decode_loop cs acc (ids1 ++ ids2)
  = (s1 <-! decode_loop cs acc ids1; decode_loop cs s1 ids2).
Proof.
  revert acc; induction ids1 as [|id ids IH]; intros acc; simpl; [done|].
  destruct (id_to_char cs id) as [c|e]; simpl; [apply IH | done].
Qed.

(** X5.  Decoding a concatenation of ID lists is decoding each and appending
    the texts; an error in the first list comes first. *)
Theorem decode_app (self : TTSTokenizer) (ids1 ids2 : list Z) :
  decode self (ids1 ++ ids2)
  = (s1 <-! decode self ids1; s2 <-! decode self ids2; Ok (s1 +:+ s2)).
Proof.
  unfold decode. rewrite decode_loop_app.
  destruct (decode_loop (characters self) EmptyString ids1) as [s1|e]; simpl; [|done].
  apply decode_loop_acc.
Qed.

(** ** Encoding a list of symbols *)

(** X6.  A list of vocabulary symbols is encoded to as many IDs, the
    tokenizer is not touched, and [ids_to_text] spells the list again. *)
Theorem encode_list_roundtrip (self : TTSTokenizer) (symbols : list string) :
  Forall (fun s => s ∈ vocab (characters self)) symbols ->
  exists ids,
    encode self (Lst symbols) = (Ok ids, self)
    /\ length ids = length symbols
    /\ ids_to_text self ids = Ok (spell symbols).
Proof.
  intros Hall.
  destruct (encode_decode_symbols _ _ EmptyString Hall) as (ids & Hids & Hdec).
  exists ids. simpl. rewrite Hids. split; [done|].
  split; [by eapply comprehension_length|].
  unfold ids_to_text, decode. by rewrite Hdec.
Qed.

Lemma encode_list_roundtrip_witness :
  exists ids,
    encode (sample_tokenizer abc_characters false false) (Lst ["<BOS>"; "c"; "<EOS>"])
      = (Ok ids, sample_tokenizer abc_characters false false)
    /\ length ids = 3
    /\ ids_to_text (sample_tokenizer abc_characters false false) ids
       = Ok (spell ["<BOS>"; "c"; "<EOS>"]).
Proof.
  apply (encode_list_roundtrip (sample_tokenizer abc_characters false false)).
  repeat constructor.
Defined.




(** ** The log, again *)

Lemma log_loop_known logged not_found :
  (forall x, x ∈ not_found -> x ∈ logged) -> log_loop logged not_found = logged.
Proof.
  induction not_found as [|c l IH]; intros Hall; simpl; [done|].
  rewrite bool_decide_eq_true_2 by (apply Hall; by left).
  apply IH. intros x Hx. apply Hall. by right.
Qed.

Lemma log_loop_idempotent logged not_found :
  log_loop (log_loop logged not_found) not_found = log_loop logged not_found.
Proof.
  apply log_loop_known. intros x Hx. apply log_loop_elem. by right.
Qed.

Lemma encode_log_idempotent self x :
  snd (encode (snd (encode self x)) x) = snd (encode self x).
Proof.
  destruct x as [s|l]; simpl; [|done].
  unfold log_not_found_characters, set_not_found_characters. simpl.
  by rewrite log_loop_idempotent.
Qed.

(** X8.  Encoding the same input a second time logs nothing new: after
    [text_to_ids] (or [encode]) the tokenizer is a fixed point of the same
    call. *)
Theorem text_to_ids_log_idempotent (self : TTSTokenizer) (text : string)
    (language : option string) :
  snd (text_to_ids (snd (text_to_ids self text language)) text language)
  = snd (text_to_ids self text language)
  /\ forall x, snd (encode (snd (encode self x)) x) = snd (encode self x).
Proof.
  split; [|apply encode_log_idempotent].
  unfold text_to_ids at 2 3.
  destruct (rbind _ _) as [x|e] eqn:Hx.
  - unfold text_to_ids.
    replace (text_cleaner (encode self x).2) with (text_cleaner self)
      by (by destruct x).
    replace (use_phonemes (encode self x).2) with (use_phonemes self)
      by (by destruct x).
    replace (phonemizer (encode self x).2) with (phonemizer self)
      by (by destruct x).
    replace (add_blank (encode self x).2) with (add_blank self)
      by (by destruct x).
    replace (use_eos_bos (encode self x).2) with (use_eos_bos self)
      by (by destruct x).
    replace (intersperse_blank_char (encode self x).2)
      with (intersperse_blank_char self) by (by destruct x).
    replace (pad_with_bos_eos (encode self x).2)
      with (pad_with_bos_eos self) by (by destruct x).
    rewrite Hx. apply encode_log_idempotent.
  - simpl. unfold text_to_ids. by rewrite Hx.
Qed.

(** ** What every tokenizer in use satisfies *)

Lemma grows_consistent self self' : grows self self' -> consistent self -> consistent self'.
Proof. intros (ext & -> & _) Hc. exact Hc. Qed.

Lemma grows_NoDup self self' :
  grows self self' -> NoDup (not_found_characters self) ->
  NoDup (not_found_characters self').
Proof.
  intros (ext & -> & Hnd & Hnew) Hl. simpl.
  apply NoDup_app. split_and!; [done | | done].
  intros x Hx Hx'. by apply (Hnew x).
Qed.

(** X9.  Every tokenizer built by the constructor and used through [encode],
    [text_to_ids], [log_not_found_characters] and assignments to [characters]
    that did not raise is consistent (its two tokenizers and its [pad_id],
    [blank_id] come from its character set) and has no symbol twice in
    [not_found_characters]. *)
Theorem reachable_invariant (self : TTSTokenizer) :
  reachable self -> consistent self /\ NoDup (not_found_characters self).
Proof.
  induction 1 as [ph tc cs pz ab eb self Hinit
                 |self x _ [IHc IHn]
                 |self text language _ [IHc IHn]
                 |self not_found _ [IHc IHn]
                 |self cs self' _ [IHc IHn] Hassign].
  - split; [by eapply init_consistent|].
    unfold init in Hinit. destruct (char_to_id cs (pad cs)); [|done].
    destruct (char_to_id cs (blank cs)); [|done]. simpl in Hinit.
    injection Hinit as <-. simpl. constructor.
  - pose proof (encode_grows self x) as Hg.
    split; [by eapply grows_consistent | by eapply grows_NoDup].
  - pose proof (text_to_ids_grows self text language) as Hg.
    split; [by eapply grows_consistent | by eapply grows_NoDup].
  - pose proof (log_not_found_characters_grows self not_found) as Hg.
    split; [by eapply grows_consistent | by eapply grows_NoDup].
  - unfold assign_characters in Hassign.
    destruct (char_to_id cs (pad cs)) eqn:Hp; [|done].
    destruct (char_to_id cs (blank cs)) eqn:Hb; [|done].
    injection Hassign as <-. split; [by repeat split | done].
Qed.

Lemma reachable_invariant_witness :
  let self :=
    snd (text_to_ids (snd (assign_characters (sample_tokenizer ab_characters false false)
                             abc_characters))
           "xay" None) in
  consistent self /\ NoDup (not_found_characters self).
Proof.
  apply reachable_invariant.
  apply reachable_text_to_ids.
  apply (reachable_assign (sample_tokenizer ab_characters false false) abc_characters);
    [|reflexivity].
  by apply (reachable_init false None ab_characters None false false).
Defined.

(** ** The length of what [encode] returns for a string *)

Lemma spell_length_ge symbols :
  Forall (fun s => s <> EmptyString) symbols ->
  length symbols <= String.length (spell symbols).
Proof.
  induction 1 as [|s l Hs _ IH]; simpl; [lia|].
  rewrite ReFacts.length_app. destruct s; [done|]. simpl. lia.
Qed.

(** X10.  When the empty string is not a symbol of the vocabulary, [encode] of
    a string returns at most as many IDs as the string has characters. *)
Theorem encode_length_bound (self : TTSTokenizer) (text : string) :
  consistent self ->
  (EmptyString ∉ vocab (characters self)) ->
  exists ids,
    fst (encode self (Str text)) = Ok ids
    /\ length ids <= String.length text.
Proof.
  intros Hc Hne. rewrite encode_Str by done. simpl.
  pose proof (ScanFacts.run_matches (vocab (characters self)) false text) as Hm.
  destruct (comprehension_Forall2 _ _ Hm) as (ids & Hids & _).
  exists ids. split; [done|].
  rewrite (comprehension_length _ _ _ Hids).
  pose proof (reassemble_length (Re.run (vocab (characters self)) false text)) as Hlen.
  rewrite ScanFacts.reassemble_run in Hlen.
  etrans; [apply spell_length_ge|unfold Re.scan; lia].
  eapply Forall_impl; [exact Hm|]. intros s Hs ->. done.
Qed.

Lemma encode_length_bound_witness :
  exists ids,
    fst (encode (sample_tokenizer abc_characters false false) (Str "a<PAD>zb")) = Ok ids
    /\ length ids <= 8.
Proof.
  apply (encode_length_bound (sample_tokenizer abc_characters false false) "a<PAD>zb").
  - repeat split.
  - by apply (bool_decide_unpack _).
Defined.

(** ** Reading the interspersed sequence back *)

Lemma omap_fmap_compose {A B C} (f : B -> option C) (g : A -> B) (l : list A) :
  omap f (g <$> l) = omap (fun x => f (g x)) l.
Proof.
  induction l as [|x l IH]; [done|]. csimpl.
  destruct (f (g x)); by rewrite IH.
Qed.

Lemma omap_ext_elem {A B} (f g : A -> option B) (l : list A) :
  (forall x, x ∈ l -> f x = g x) -> omap f l = omap g l.
Proof.
  induction l as [|a l IH]; intros H; [done|]. csimpl.
  rewrite (H a) by (by left). rewrite IH; [done|].
  intros x Hx. apply H. by right.
Qed.

Lemma omap_lookup_seq {A} (l : list A) :
  omap (fun k => l !! k) (seq 0 (length l)) = l.
Proof.
  induction l as [|a l IH]; [done|]. cbn [length seq]. csimpl.
  rewrite <- fmap_S_seq, omap_fmap_compose. f_equal. exact IH.
Qed.

Lemma omap_const {A B} (f : A -> option B) (b : B) (l : list A) :
  (forall x, x ∈ l -> f x = Some b) -> omap f l = replicate (length l) b.
Proof.
  induction l as [|a l IH]; intros H; [done|]. csimpl.
  rewrite (H a) by (by left). rewrite IH; [done|].
  intros x Hx. apply H. by right.
Qed.

Lemma slice_indices_even n :
  slice_indices 0 2 (n * 2 + 1) = (fun k => 0 + k * 2) <$> seq 0 (n + 1).
Proof.
  unfold slice_indices. do 2 f_equal.
  replace (n * 2 + 1 - 0 + (2 - 1)) with ((n + 1) * 2) by lia.
  by rewrite Nat.div_mul by lia.
Qed.

(** X11.  For both values of [use_blank_char] the result of
    [intersperse_blank_char] reads back: [result[1::2]] is the input sequence
    and [result[0::2]] is [len(seq) + 1] copies of the filler, which is [pad]
    when [use_blank_char] is false. *)
Theorem intersperse_blank_char_slices (self : TTSTokenizer)
    (char_sequence : str_or_list) (use_blank_char : bool) :
  let filler :=
    if use_blank_char then blank (characters self) else pad (characters self) in
  exists out,
    intersperse_blank_char self char_sequence use_blank_char = Ok out
    /\ length out = 2 * py_len char_sequence + 1
    /\ get_slice 1 2 out = py_list char_sequence
    /\ get_slice 0 2 out = replicate (py_len char_sequence + 1) filler.
Proof.
  intros filler. eexists. split; [apply intersperse_blank_char_Ok|].
  cbn zeta. fold filler. rewrite py_len_list.
  set (l := py_list char_sequence).
  assert (length (filler :: flat_map (fun x => [x; filler]) l) = length l * 2 + 1)
    as Hlen by (rewrite interspersed_length; lia).
  split; [rewrite interspersed_length; lia|]. split.
  - unfold get_slice. rewrite Hlen, slice_indices_odd, omap_fmap_compose.
    rewrite <- (omap_lookup_seq l) at 2. apply omap_ext_elem.
    intros k _. replace (1 + k * 2) with (2 * k + 1) by lia.
    apply interspersed_odd.
  - unfold get_slice. rewrite Hlen, slice_indices_even, omap_fmap_compose.
    rewrite (omap_const _ filler); [by rewrite length_seq|].
    intros k Hk%elem_of_seq. replace (0 + k * 2) with (2 * k) by lia.
    apply interspersed_even. lia.
Qed.

(** ** Unique segmentation *)

Module Segmentation.
Import Re ReFacts ScanFacts PrefixFree.

Lemma spell_symbols_cons (voc : list string) symbols c s :
  (EmptyString ∉ voc) -> Forall (fun x => x ∈ voc) symbols ->
  spell symbols = String c s ->
  exists lit rest, symbols = lit :: rest /\ lit ∈ voc /\ lit <> EmptyString
    /\ Forall (fun x => x ∈ voc) rest /\ String c s = lit +:+ spell rest.
Proof.
  intros Hne Hall Hs. destruct Hall as [|x l Hx Hl]; [done|].
  exists x, l. split_and!; try done. by intros ->.
Qed.

(** Over a prefix-free vocabulary without the empty symbol, the matches of a
    spelled text are the symbols it was spelled with. *)
Lemma run_symbols (voc : list string) adv symbols :
  prefix_free voc = true -> (EmptyString ∉ voc) ->
  Forall (fun x => x ∈ voc) symbols ->
  (fst (run voc adv (spell symbols))).*2 = symbols.
Proof.
  intros Hpf Hne Hall.
  cut (forall s r, r = run voc adv s ->
         forall symbols, Forall (fun x => x ∈ voc) symbols ->
           s = spell symbols -> (fst r).*2 = symbols); [by eauto|].
  intros s r ->. clear symbols Hall.
  apply (run_ind voc (fun _ s r =>
    forall symbols, Forall (fun x => x ∈ voc) symbols -> s = spell symbols ->
      (fst r).*2 = symbols)); clear adv s.
  - intros adv _ symbols Hall Hs. destruct Hall as [|x l Hx _]; [done|].
    destruct x; [done|]. discriminate.
  - intros adv c s Hm _ symbols Hall Hs. exfalso.
    destruct (spell_symbols_cons voc symbols c s Hne Hall (eq_sym Hs))
      as (lit & rest & _ & Hlit & Hlne & _ & Heq).
    by destruct (match_at_None _ _ _ _ _ Hm Hlit Heq).
  - intros adv s m rest Hm IH symbols Hall Hs.
    apply match_at_Some in Hm as (Hin & Hsm & _).
    destruct m as [|d m]; [done|].
    rewrite Hsm in Hs. rewrite app_cons in Hs.
    destruct (spell_symbols_cons voc symbols _ _ Hne Hall (eq_sym Hs))
      as (lit & rest' & -> & Hlit & Hlne & Hrest & Heq).
    change (String d (m +:+ rest)) with (String d m +:+ rest) in Heq.
    assert (String d m = lit) as <-.
    { destruct (prefixes_comparable _ _ _ _ Heq) as [Hp|Hp].
      - by apply (prefix_free_eq voc).
      - symmetry. by apply (prefix_free_eq voc). }
    apply (inj (String.app (String d m))) in Heq.
    simpl. f_equal. by apply IH.
Qed.

End Segmentation.

(** X12.  Over a vocabulary in which no symbol begins another and the empty
    string is no symbol, the text spelled with symbols of the vocabulary is
    tokenized into exactly these symbols: [encode] of the string and [encode]
    of the list of symbols return the same IDs and the same tokenizer. *)
Theorem encode_string_as_symbols (self : TTSTokenizer) (symbols : list string) :
  consistent self ->
  prefix_free (vocab (characters self)) = true ->
  (EmptyString ∉ vocab (characters self)) ->
  Forall (fun x => x ∈ vocab (characters self)) symbols ->
  encode self (Str (spell symbols)) = encode self (Lst symbols).
Proof.
  intros Hc Hpf Hne Hall. rewrite encode_Str by done. unfold Re.scan.
  pose proof (PrefixFree.run_spelled _ false symbols Hpf Hall) as Hg.
  rewrite (consistent_compile self Hc) in Hg.
  rewrite Hg, log_not_found_characters_nil.
  by rewrite (Segmentation.run_symbols _ false symbols Hpf Hne Hall).
Qed.

Lemma encode_string_as_symbols_witness :
  encode (sample_tokenizer abc_characters false false)
    (Str (spell ["<BOS>"; "b"; "a"; "<EOS>"]))
  = encode (sample_tokenizer abc_characters false false)
      (Lst ["<BOS>"; "b"; "a"; "<EOS>"]).
Proof.
  apply (encode_string_as_symbols (sample_tokenizer abc_characters false false)).
  - repeat split.
  - reflexivity.
  - by apply (bool_decide_unpack _).
  - repeat constructor.
Defined.

(** ** Witnesses for the two paths of [text_to_ids] *)

Lemma text_to_ids_list_path_raises_witness :
  exists x, (x ∉ vocab abc_characters)
    /\ text_to_ids (sample_tokenizer abc_characters false true) "a!b?" None
       = (Raise (UnknownSymbolError x), sample_tokenizer abc_characters false true).
Proof.
  apply (text_to_ids_list_path_raises
           (sample_tokenizer abc_characters false true) "a!b?" None "?").
  - reflexivity.
  - reflexivity.
  - reflexivity.
  - by apply (bool_decide_unpack _).
  - by apply (bool_decide_unpack _).
Defined.

Lemma text_to_ids_string_path_Ok_witness :
  text_to_ids (sample_tokenizer abc_characters false false) "a!b?" None
  = encode (sample_tokenizer abc_characters false false) (Str "a!b?")
  /\ exists ids,
    fst (text_to_ids (sample_tokenizer abc_characters false false) "a!b?" None) = Ok ids.
Proof.
  apply (text_to_ids_string_path_Ok
           (sample_tokenizer abc_characters false false) "a!b?" None).
  - repeat split.
  - reflexivity.
  - reflexivity.
  - reflexivity.
  - reflexivity.
Defined.

(** * Building a tokenizer from a configuration *)

Module FromConfigFacts.
Import FromConfig.
Section Collaborators.

Variable cleaners : string -> option (string -> string).
Variable IPAPhonemes_init_from_config : Coqpit -> outcome Characters.
Variable Graphemes_init_from_config : Coqpit -> outcome Characters.
Variable get_phonemizer_by_name : string -> string -> outcome Phonemizer.
Variable DEF_LANG_TO_PHONEMIZER : gmap string string.

Local Abbreviation from_config :=
  (init_from_config cleaners IPAPhonemes_init_from_config
     Graphemes_init_from_config get_phonemizer_by_name DEF_LANG_TO_PHONEMIZER).

Lemma lift_Return {A} (r : result A) a : lift r = Return a -> r = Ok a.
Proof. destruct r; simpl; congruence. Qed.

(** A tokenizer is returned only when both locals have been assigned. *)
Lemma from_config_Return_needs (config : Coqpit) (tok : TTSTokenizer) :
  from_config config = Return tok ->
  cfg_use_phonemes config = true /\ exists n, cfg_text_cleaner config = CfgStr n.
Proof.
  unfold init_from_config. intros H.
  destruct (cfg_text_cleaner config) as [n| |]; simpl in H; [|done|].
  - destruct (cleaners n); simpl in H; [|done].
    destruct (cfg_use_phonemes config); [by eauto|].
    destruct (Graphemes_init_from_config config); simpl in H; done.
  - destruct (cfg_use_phonemes config).
    + destruct (IPAPhonemes_init_from_config config); simpl in H; [|done].
      destruct (explicit_phonemizer config).
      * destruct (get_phonemizer_by_name _ _); simpl in H; done.
      * destruct (DEF_LANG_TO_PHONEMIZER !! _); simpl in H; [|done].
        destruct (get_phonemizer_by_name _ _); simpl in H; done.
    + destruct (Graphemes_init_from_config config); simpl in H; done.
Qed.

(** X13.  [init_from_config] returns a tokenizer only for a configuration
    with [use_phonemes] set whose [text_cleaner] is a string naming a
    cleaner.  The tokenizer then is the one the constructor builds from the
    IPA character set, that cleaner, and the phonemizer named by
    [config.phonemizer] or, without it, by the default of the phoneme
    language; it is consistent and has logged nothing. *)
Theorem init_from_config_Return (config : Coqpit) (tok : TTSTokenizer) :
  from_config config = Return tok ->
  cfg_use_phonemes config = true
  /\ exists n clean cs pname p,
       cfg_text_cleaner config = CfgStr n /\ cleaners n = Some clean
       /\ IPAPhonemes_init_from_config config = Return cs
       /\ (explicit_phonemizer config = Some pname
           \/ explicit_phonemizer config = None
              /\ DEF_LANG_TO_PHONEMIZER !! cfg_phoneme_language config = Some pname)
       /\ get_phonemizer_by_name pname (cfg_phoneme_language config) = Return p
       /\ init true (Some clean) cs (Some p) (cfg_add_blank config)
            (cfg_enable_eos_bos_chars config) = Ok tok
       /\ consistent tok
       /\ not_found_characters tok = [].
Proof.
  unfold init_from_config. intros H.
  destruct (cfg_text_cleaner config) as [n| |] eqn:Htc; simpl in H; [|done|].
  - destruct (cleaners n) as [clean|] eqn:Hclean; simpl in H; [|done].
    destruct (cfg_use_phonemes config) eqn:Hph.
    + destruct (IPAPhonemes_init_from_config config) as [cs|] eqn:Hcs;
        simpl in H; [|done].
      assert (exists pname p,
        (explicit_phonemizer config = Some pname
         \/ explicit_phonemizer config = None
            /\ DEF_LANG_TO_PHONEMIZER !! cfg_phoneme_language config = Some pname)
        /\ get_phonemizer_by_name pname (cfg_phoneme_language config) = Return p
        /\ lift (init true (Some clean) cs (Some p) (cfg_add_blank config)
                   (cfg_enable_eos_bos_chars config)) = Return tok)
        as (pname & p & Hname & Hp & Hinit).
      { destruct (explicit_phonemizer config) as [pname|] eqn:He.
        - destruct (get_phonemizer_by_name pname _) as [p|] eqn:Hp;
            simpl in H; [|done].
          exists pname, p. split; [by left | done].
        - destruct (DEF_LANG_TO_PHONEMIZER !! _) as [pname|] eqn:Hd;
            simpl in H; [|done].
          destruct (get_phonemizer_by_name pname _) as [p|] eqn:Hp;
            simpl in H; [|done].
          exists pname, p. split; [by right | done]. }
      apply lift_Return in Hinit. split; [done|].
      exists n, clean, cs, pname, p. split_and!; try done.
      * by eapply init_consistent.
      * unfold init in Hinit. destruct (char_to_id cs (pad cs)); [|done].
        destruct (char_to_id cs (blank cs)); [|done]. simpl in Hinit.
        by injection Hinit as <-.
    + destruct (Graphemes_init_from_config config); simpl in H; done.
  - destruct (cfg_use_phonemes config).
    + destruct (IPAPhonemes_init_from_config config); simpl in H; [|done].
      destruct (explicit_phonemizer config).
      * destruct (get_phonemizer_by_name _ _); simpl in H; done.
      * destruct (DEF_LANG_TO_PHONEMIZER !! _); simpl in H; [|done].
        destruct (get_phonemizer_by_name _ _); simpl in H; done.
    + destruct (Graphemes_init_from_config config); simpl in H; done.
Qed.


(** X14.  Without [use_phonemes] the call always ends in an exception: once
    the cleaner and the grapheme character set are there, it is the read of
    the local [phonemizer], which no path has assigned.  And a
    [text_cleaner] that is neither a string nor a list leaves the local
    [text_cleaner] unassigned, which is read first. *)
Theorem init_from_config_unbound (config : Coqpit) :
  (cfg_use_phonemes config = false ->
   (forall tok, from_config config <> Return tok)
   /\ forall n clean cs,
        cfg_text_cleaner config = CfgStr n -> cleaners n = Some clean ->
        Graphemes_init_from_config config = Return cs ->
        from_config config = Throw (UnboundLocalError "phonemizer"))
  /\ (cfg_text_cleaner config = CfgOther ->
      (forall tok, from_config config <> Return tok)
      /\ forall cs,
           cfg_use_phonemes config = false ->
           Graphemes_init_from_config config = Return cs ->
           from_config config = Throw (UnboundLocalError "text_cleaner")).
Proof.
  split.
  - intros Hph. split.
    + intros tok H. apply from_config_Return_needs in H as [H _]. congruence.
    + intros n clean cs Htc Hclean Hcs. unfold init_from_config.
      by rewrite Htc, Hclean, Hph, Hcs.
  - intros Htc. split.
    + intros tok H. apply from_config_Return_needs in H as (_ & n & H).
      congruence.
    + intros cs Hph Hcs. unfold init_from_config. by rewrite Htc, Hph, Hcs.
Qed.

End Collaborators.
End FromConfigFacts.

Lemma init_from_config_Return_witness :
  exists tok,
    FromConfig.init_from_config sample_cleaners sample_character_set
      sample_character_set sample_get_phonemizer sample_default_phonemizers
      (sample_config true (CfgStr "basic_cleaners")) = Return tok
    /\ use_phonemes tok = true
    /\ consistent tok
    /\ not_found_characters tok = [].
Proof.
  eexists. split; [vm_compute; reflexivity|].
  split; [reflexivity|].
  destruct (FromConfigFacts.init_from_config_Return sample_cleaners
              sample_character_set sample_character_set sample_get_phonemizer
              sample_default_phonemizers
              (sample_config true (CfgStr "basic_cleaners")) _ eq_refl)
    as (_ & n & clean & cs & pname & p & _ & _ & _ & _ & _ & _ & Hc & Hn).
  by split.
Defined.

Lemma init_from_config_unbound_witness :
  FromConfig.init_from_config sample_cleaners sample_character_set
    sample_character_set sample_get_phonemizer sample_default_phonemizers
    (sample_config false (CfgStr "basic_cleaners"))
  = Throw (UnboundLocalError "phonemizer")
  /\ FromConfig.init_from_config sample_cleaners sample_character_set
       sample_character_set sample_get_phonemizer sample_default_phonemizers
       (sample_config false CfgOther)
     = Throw (UnboundLocalError "text_cleaner").
Proof.
  split.
  - apply (proj2 (proj1 (FromConfigFacts.init_from_config_unbound sample_cleaners
                    sample_character_set sample_character_set sample_get_phonemizer
                    sample_default_phonemizers
                    (sample_config false (CfgStr "basic_cleaners"))) eq_refl)
             "basic_cleaners" (fun text => text) abc_characters);
      reflexivity.
  - apply (proj2 (proj2 (FromConfigFacts.init_from_config_unbound sample_cleaners
                    sample_character_set sample_character_set sample_get_phonemizer
                    sample_default_phonemizers
                    (sample_config false CfgOther)) eq_refl)
             abc_characters);
      reflexivity.
Defined.

(** * Padding arrays *)

Module DataFacts.
Import Data.
Section Arrays.

Variable elt : Type.
Variable zero : elt.

Local Abbreviation pad_data := (Data.pad_data elt zero).
Local Abbreviation prepare_data := (Data.prepare_data elt zero).
Local Abbreviation pad_per_step := (Data.pad_per_step elt zero).

(** X15.  [pad_data] of a one-dimensional array of at most [length] entries
    returns [length] entries: the array, then zeros.  A shorter [length]
    raises the error of a negative pad width, an array of another dimension
    fails the assertion. *)
Theorem pad_data_outcome (x : ndarray elt) (length_ : Z) :
  (forall v, x = Arr1 elt v -> (Z.of_nat (length v) <= length_)%Z ->
     exists out,
       pad_data x length_ = Return out
       /\ length out = Z.to_nat length_
       /\ take (length v) out = v
       /\ drop (length v) out = replicate (Z.to_nat length_ - length v) zero)
  /\ (forall v, x = Arr1 elt v -> (length_ < Z.of_nat (length v))%Z ->
        pad_data x length_
        = Throw (Exn (ValueError "index can't contain negative values")))
  /\ (ndim elt x <> 1 -> pad_data x length_ = Throw AssertionError).
Proof.
  split_and!.
  - intros v -> Hle. unfold Data.pad_data, np_pad_after. simpl.
    destruct (Z.ltb_spec (length_ - Z.of_nat (length v)) 0) as [?|_]; [lia|].
    eexists. split; [done|].
    rewrite length_app, length_replicate, take_app_length, drop_app_length.
    split_and!; [lia | done | f_equal; lia].
  - intros v -> Hlt. unfold Data.pad_data, np_pad_after. simpl.
    destruct (Z.ltb_spec (length_ - Z.of_nat (length v)) 0) as [_|?]; [done | lia].
  - intros Hdim. by destruct x.
Qed.

Lemma foldl_max_le n l : n <= foldl Nat.max n l.
Proof.
  revert n; induction l as [|x l IH]; intros n; simpl; [done|].
  etrans; [|apply IH]. lia.
Qed.

Lemma foldl_max_ge n l x : x ∈ l -> x <= foldl Nat.max n l.
Proof.
  revert n; induction l as [|y l IH]; intros n Hx; simpl.
  - by apply elem_of_nil in Hx.
  - apply elem_of_cons in Hx as [->|Hx]; [|by apply IH].
    etrans; [|apply foldl_max_le]. lia.
Qed.

Lemma foldl_max_elem n l : foldl Nat.max n l ∈ n :: l.
Proof.
  revert n; induction l as [|y l IH]; intros n; simpl; [by left|].
  specialize (IH (n `max` y)). apply elem_of_cons in IH as [Heq|IH].
  - rewrite Heq. destruct (Nat.max_spec n y) as [[_ ->]|[_ ->]];
      [right; by left | by left].
  - right. by right.
Qed.

Lemma pad_rows (inputs : list (list elt)) (max_len : nat) :
  Forall (fun v => length v <= max_len) inputs ->
  comprehension_o (fun x => pad_data x (Z.of_nat max_len)) (Arr1 elt <$> inputs)
  = Return ((fun v => v ++ replicate (max_len - length v) zero) <$> inputs).
Proof.
  induction 1 as [|v l Hv _ IH]; [done|]. cbn [fmap list_fmap comprehension_o].
  unfold Data.pad_data at 1. unfold np_pad_after.
  destruct (Z.ltb_spec (Z.of_nat max_len - Z.of_nat (length v)) 0) as [?|_]; [lia|].
  cbn [obind]. change (list_fmap _ _ (Arr1 elt) l) with (Arr1 elt <$> l).
  rewrite IH. cbn [obind]. do 4 f_equal. lia.
Qed.

Lemma lens_1d (vs : list (list elt)) :
  comprehension_o (len elt) (Arr1 elt <$> vs) = Return (length <$> vs).
Proof.
  induction vs as [|v vs IH]; [done|]. cbn [fmap list_fmap comprehension_o len obind].
  change (list_fmap _ _ (Arr1 elt) vs) with (Arr1 elt <$> vs). by rewrite IH.
Qed.

(** The lengths are there when every array has a dimension. *)
Lemma lens_sized (inputs : list (ndarray elt)) :
  Forall (fun x => ndim elt x <> 0) inputs ->
  exists lens,
    comprehension_o (len elt) inputs = Return lens
    /\ Forall2 (fun x n => len elt x = Return n) inputs lens.
Proof.
  induction 1 as [|x l Hx _ (lens & Hlens & Hall)].
  - exists []. split; [done | constructor].
  - destruct (len elt x) as [n|e] eqn:Hn; [|by destruct x].
    exists (n :: lens). cbn [comprehension_o]. rewrite Hn, Hlens.
    split; [done | by constructor].
Qed.

(** The first array without a dimension stops [max]. *)
Lemma lens_unsized (inputs : list (ndarray elt)) :
  Exists (fun x => ndim elt x = 0) inputs ->
  comprehension_o (len elt) inputs = Throw (TypeError "len() of unsized object").
Proof.
  induction 1 as [x l Hx|x l _ IH]; cbn [comprehension_o].
  - by destruct x.
  - rewrite IH. by destruct x.
Qed.

Lemma not_all_1d (inputs : list (ndarray elt)) :
  (forall vs, inputs <> Arr1 elt <$> vs) ->
  exists vs x rest, inputs = (Arr1 elt <$> vs) ++ x :: rest /\ ndim elt x <> 1.
Proof.
  induction inputs as [|x l IH]; intros H.
  - by destruct (H []).
  - destruct (decide (ndim elt x = 1)) as [Hx|Hx].
    + destruct x as [a|v|m|t|more n]; try done.
      destruct IH as (vs & y & rest & -> & Hy).
      { intros vs ->. by apply (H (v :: vs)). }
      by exists (v :: vs), y, rest.
    + by exists [], x, l.
Qed.

(** X16.  [prepare_data] of a non-empty list of one-dimensional arrays
    returns one row per array, every row as long as the longest array: the
    array, then zeros; the pad width is never negative and the rows always
    stack.  An empty list raises the error of [max]; an array of no dimension
    in the list raises the error of [len], before anything is padded; and
    when every array has a dimension, one that is not one-dimensional fails
    the assertion of [pad_data]. *)
Theorem prepare_data_outcome (inputs : list (ndarray elt)) :
  (inputs = [] ->
   prepare_data inputs = Throw (Exn (ValueError "max() arg is an empty sequence")))
  /\ (forall vs, inputs = Arr1 elt <$> vs -> vs <> [] ->
      exists max_len,
        max_len ∈ length <$> vs
        /\ Forall (fun v => length v <= max_len) vs
        /\ prepare_data inputs
           = Return ((fun v => v ++ replicate (max_len - length v) zero) <$> vs)
        /\ Forall (fun row => length row = max_len)
             ((fun v => v ++ replicate (max_len - length v) zero) <$> vs))
  /\ (Exists (fun x => ndim elt x = 0) inputs ->
      prepare_data inputs = Throw (TypeError "len() of unsized object"))
  /\ (inputs <> [] -> Forall (fun x => ndim elt x <> 0) inputs ->
      (forall vs, inputs <> Arr1 elt <$> vs) ->
      prepare_data inputs = Throw AssertionError).
Proof.
  split_and!.
  - by intros ->.
  - intros vs -> Hne. destruct vs as [|v0 vs]; [done|].
    set (max_len := foldl Nat.max (length v0) (length <$> vs)).
    assert (Forall (fun v => length v <= max_len) (v0 :: vs)) as Hle.
    { constructor; [apply foldl_max_le|]. apply Forall_forall. intros v Hv.
      apply foldl_max_ge. by apply list_elem_of_fmap_2. }
    assert (Forall (fun row => length row = max_len)
              ((fun v => v ++ replicate (max_len - length v) zero) <$> v0 :: vs))
      as Hrows.
    { apply Forall_fmap. eapply Forall_impl; [exact Hle|]. intros v Hv.
      simpl in *. rewrite length_app, length_replicate. lia. }
    exists max_len. split_and!; [apply foldl_max_elem | done | | done].
    unfold Data.prepare_data. rewrite lens_1d. cbn [obind fmap list_fmap py_max].
    fold max_len. cbn [obind].
    change (Arr1 elt v0 :: (Arr1 elt <$> vs)) with (Arr1 elt <$> v0 :: vs).
    rewrite (pad_rows (v0 :: vs) max_len Hle). cbn [obind].
    unfold np_stack. cbn [fmap list_fmap].
    rewrite (proj2 (forallb_forall _ _)); [done|].
    intros row Hrow%list_elem_of_In. apply Nat.eqb_eq.
    inversion Hrows as [|? ? H0 Hrest]; subst.
    rewrite Forall_forall in Hrest. rewrite (Hrest row Hrow). by rewrite H0.
  - intros Hex. unfold Data.prepare_data. by rewrite lens_unsized.
  - intros Hne Hsized Hnot.
    destruct (lens_sized inputs Hsized) as (lens & Hlens & Hall).
    destruct (not_all_1d inputs Hnot) as (vs & x & rest & -> & Hx).
    unfold Data.prepare_data. rewrite Hlens. cbn [obind].
    destruct (py_max lens) as [max_len|e] eqn:Hmax.
    2: { destruct lens; [|done]. apply Forall2_length in Hall.
         rewrite length_app in Hall. simpl in Hall. lia. }
    cbn [obind].
    assert (Forall (fun v => length v <= max_len) vs) as Hle.
    { apply Forall_forall. intros v Hv.
      assert (length v ∈ lens) as Hin.
      { apply list_elem_of_lookup in Hv as [i Hi].
        assert (((Arr1 elt <$> vs) ++ x :: rest) !! i = Some (Arr1 elt v)) as Hi'.
        { rewrite lookup_app_l by (rewrite length_fmap; by eapply lookup_lt_Some).
          by rewrite list_lookup_fmap, Hi. }
        destruct (Forall2_lookup_l _ _ _ _ _ Hall Hi') as (n & Hn & Hlen).
        simpl in Hlen. injection Hlen as <-. by eapply list_elem_of_lookup_2. }
      destruct lens as [|n l]; [done|]. injection Hmax as <-.
      apply elem_of_cons in Hin as [->|Hin];
        [apply foldl_max_le | by apply foldl_max_ge]. }
    assert (comprehension_o (fun y => pad_data y (Z.of_nat max_len))
              ((Arr1 elt <$> vs) ++ x :: rest) = Throw AssertionError) as ->; [|done].
    clear Hmax Hne Hnot Hall Hlens Hsized.
    induction Hle as [|v l Hv _ IH]; cbn [fmap list_fmap app comprehension_o].
    + replace (pad_data x (Z.of_nat max_len)) with (@Throw (list elt) AssertionError)
        by (by destruct x).
      done.
    + unfold Data.pad_data at 1. unfold np_pad_after.
      destruct (Z.ltb_spec (Z.of_nat max_len - Z.of_nat (length v)) 0) as [?|_];
        [lia|].
      cbn [obind]. change (list_fmap _ _ (Arr1 elt) l) with (Arr1 elt <$> l).
      by rewrite IH.
Qed.

(** X17.  [pad_per_step] of a three-dimensional array of shape [(a, b, c)]
    returns an array of shape [(a, b, c + pad_len)] whose rows are the rows of
    the input followed by [pad_len] zeros.  An array of no dimension raises at
    [shape[-1]]; of the others, a negative [pad_len] raises, and so does an
    array that is not three-dimensional. *)
Theorem pad_per_step_outcome (inputs : ndarray elt) (pad_len : Z) :
  (forall t a b c,
     inputs = Arr3 elt t -> has_shape elt t a b c -> (0 <= pad_len)%Z ->
     exists out,
       pad_per_step inputs pad_len = Return out
       /\ has_shape elt out a b (c + Z.to_nat pad_len)
       /\ forall i j m row,
            t !! i = Some m -> m !! j = Some row ->
            exists m', out !! i = Some m'
              /\ m' !! j = Some (row ++ replicate (Z.to_nat pad_len) zero))
  /\ (ndim elt inputs = 0 ->
      pad_per_step inputs pad_len = Throw (IndexError "tuple index out of range"))
  /\ (ndim elt inputs <> 0 -> (pad_len < 0)%Z ->
      pad_per_step inputs pad_len
      = Throw (Exn (ValueError "index can't contain negative values")))
  /\ (ndim elt inputs <> 0 -> ndim elt inputs <> 3 -> (0 <= pad_len)%Z ->
      pad_per_step inputs pad_len
      = Throw (Exn (ValueError "operands could not be broadcast together"))).
Proof.
  unfold Data.pad_per_step. split_and!.
  - intros t a b c -> [Ha Hall] Hpos.
    destruct (Z.ltb_spec pad_len 0) as [?|_]; [lia|].
    eexists. split; [done|]. split.
    + split; [by rewrite length_map|].
      apply Forall_map. eapply Forall_impl; [exact Hall|].
      intros m [Hb Hrows]. simpl. split; [by rewrite length_map|].
      apply Forall_map. eapply Forall_impl; [exact Hrows|].
      intros row Hc. simpl in *. rewrite length_app, length_replicate. lia.
    + intros i j m row Hi Hj. eexists. split.
      * change (map ?f t) with (f <$> t). by rewrite list_lookup_fmap, Hi.
      * change (map ?f m) with (f <$> m). by rewrite list_lookup_fmap, Hj.
  - intros Hdim. by destruct inputs.
  - intros Hdim Hneg. destruct (Z.ltb_spec pad_len 0) as [_|?]; [|lia].
    by destruct inputs.
  - intros Hdim0 Hdim3 Hpos. destruct (Z.ltb_spec pad_len 0) as [?|_]; [lia|].
    by destruct inputs.
Qed.

End Arrays.
End DataFacts.

Lemma pad_data_outcome_witness :
  (exists out,
     Data.pad_data Z 0%Z (Data.Arr1 Z [3; 1; 4]%Z) 5 = Return out
     /\ length out = Z.to_nat 5
     /\ take 3 out = [3; 1; 4]%Z
     /\ drop 3 out = replicate (Z.to_nat 5 - 3) 0%Z)
  /\ Data.pad_data Z 0%Z (Data.Arr1 Z [3; 1; 4]%Z) 2
     = Throw (Exn (ValueError "index can't contain negative values"))
  /\ Data.pad_data Z 0%Z (Data.Arr2 Z [[3; 1]; [4; 1]]%Z) 5 = Throw AssertionError.
Proof.
  split_and!.
  - apply (proj1 (DataFacts.pad_data_outcome Z 0%Z (Data.Arr1 Z [3; 1; 4]%Z) 5)
             [3; 1; 4]%Z eq_refl).
    simpl. lia.
  - apply (proj1 (proj2 (DataFacts.pad_data_outcome Z 0%Z
                           (Data.Arr1 Z [3; 1; 4]%Z) 2))
             [3; 1; 4]%Z eq_refl).
    simpl. lia.
  - apply (DataFacts.pad_data_outcome Z 0%Z (Data.Arr2 Z [[3; 1]; [4; 1]]%Z) 5).
    simpl. lia.
Defined.

Lemma prepare_data_outcome_witness :
  (exists max_len,
     max_len ∈ length <$> [[3; 1; 4]; [1]; [5; 9]]%Z
     /\ Forall (fun v => length v <= max_len) [[3; 1; 4]; [1]; [5; 9]]%Z
     /\ Data.prepare_data Z 0%Z (Data.Arr1 Z <$> [[3; 1; 4]; [1]; [5; 9]]%Z)
        = Return ((fun v => v ++ replicate (max_len - length v) 0%Z)
                    <$> [[3; 1; 4]; [1]; [5; 9]]%Z)
     /\ Forall (fun row => length row = max_len)
          ((fun v => v ++ replicate (max_len - length v) 0%Z)
             <$> [[3; 1; 4]; [1]; [5; 9]]%Z))
  /\ Data.prepare_data Z 0%Z []
     = Throw (Exn (ValueError "max() arg is an empty sequence"))
  /\ Data.prepare_data Z 0%Z [Data.Arr2 Z [[1; 2; 3]]%Z; Data.Arr0 Z 7%Z]
     = Throw (TypeError "len() of unsized object")
  /\ Data.prepare_data Z 0%Z [Data.Arr1 Z [1]%Z; Data.Arr2 Z [[1; 2; 3]]%Z]
     = Throw AssertionError.
Proof.
  split_and!.
  - apply (proj1 (proj2 (DataFacts.prepare_data_outcome Z 0%Z
                           (Data.Arr1 Z <$> [[3; 1; 4]; [1]; [5; 9]]%Z)))
             [[3; 1; 4]; [1]; [5; 9]]%Z eq_refl).
    discriminate.
  - by apply (DataFacts.prepare_data_outcome Z 0%Z []).
  - apply (proj1 (proj2 (proj2 (DataFacts.prepare_data_outcome Z 0%Z
             [Data.Arr2 Z [[1; 2; 3]]%Z; Data.Arr0 Z 7%Z])))).
    apply Exists_cons_tl, Exists_cons_hd. reflexivity.
  - apply (proj2 (proj2 (proj2 (DataFacts.prepare_data_outcome Z 0%Z
             [Data.Arr1 Z [1]%Z; Data.Arr2 Z [[1; 2; 3]]%Z])))).
    + discriminate.
    + repeat constructor; simpl; lia.
    + intros [|v [|w vs]]; discriminate.
Defined.

Lemma pad_per_step_outcome_witness :
  (exists out,
     Data.pad_per_step Z 0%Z (Data.Arr3 Z [[[1; 2]; [3; 4]; [5; 6]]]%Z) 2 = Return out
     /\ Data.has_shape Z out 1 3 (2 + Z.to_nat 2))
  /\ Data.pad_per_step Z 0%Z (Data.Arr0 Z 7%Z) 2
     = Throw (IndexError "tuple index out of range")
  /\ Data.pad_per_step Z 0%Z (Data.Arr3 Z [[[1; 2]; [3; 4]; [5; 6]]]%Z) (-1)
     = Throw (Exn (ValueError "index can't contain negative values"))
  /\ Data.pad_per_step Z 0%Z (Data.Arr2 Z [[1; 2]]%Z) 2
     = Throw (Exn (ValueError "operands could not be broadcast together")).
Proof.
  split_and!.
  - destruct (proj1 (DataFacts.pad_per_step_outcome Z 0%Z
                       (Data.Arr3 Z [[[1; 2]; [3; 4]; [5; 6]]]%Z) 2)
                [[[1; 2]; [3; 4]; [5; 6]]]%Z 1 3 2 eq_refl)
      as (out & Hout & Hshape & _).
    + split; [reflexivity|]. repeat constructor.
    + lia.
    + by exists out.
  - apply (proj1 (proj2 (DataFacts.pad_per_step_outcome Z 0%Z (Data.Arr0 Z 7%Z) 2))).
    reflexivity.
  - apply (proj1 (proj2 (proj2 (DataFacts.pad_per_step_outcome Z 0%Z
             (Data.Arr3 Z [[[1; 2]; [3; 4]; [5; 6]]]%Z) (-1))))).
    + simpl. lia.
    + lia.
  - apply (proj2 (proj2 (proj2 (DataFacts.pad_per_step_outcome Z 0%Z
             (Data.Arr2 Z [[1; 2]]%Z) 2)))).
    + simpl. lia.
    + simpl. lia.
    + lia.
Defined.

(** * The demo *)

Module DemoFacts.
Import Demo.









Section Preprocess.

Variable format_audio_list : list string -> string -> string -> outcome (string * string).


End Preprocess.
End DemoFacts.

(** * A tokenizer that asks for phonemes without a phonemizer *)



